(** * Windowing, seizure scan and running mean of the seizure-prediction scripts

    A shallow embedding of
    - [classic_dl/lstm/utils.py]: [generate_indices], [generate_sequences];
    - [data_description/explore_data.py]: the seizure scan loop;
    - [classic_ml/svm/svm.py]: [running_mean];
    followed by the properties established about them.

    Conventions.  Python integers are [Z]; [//] and [%] are [Z.div] and
    [Z.modulo] (both round towards minus infinity, the remainder taking the
    sign of the divisor), with the division by zero written out as an
    exception.  One-dimensional numpy arrays are lists, two-dimensional index
    arrays are lists of rows.  Real-valued data (targets, thresholds, the
    subsampling factor, probabilities) are rationals [Q] with exact
    arithmetic: the rounding of IEEE doubles is not part of the model.
    Exceptions are values of [exn] carried by [result].  The draws of numpy's
    global random generator are explicit arguments. *)

From Stdlib Require Import ZArith QArith Qround Lia List Bool Sorting.Sorted Permutation.
From stdpp Require Import base option list sorting gmap.

Local Open Scope Z_scope.

(* ===================================================================== *)
(** * Exceptions *)
(* ===================================================================== *)

Inductive exn : Set :=
| ValueError
| ZeroDivisionError
| IndexError
| KeyError
| TypeError.

Inductive result (A : Type) : Type :=
| Ok (a : A)
| Raise (e : exn).
Arguments Ok {A} a.
Arguments Raise {A} e.

Definition rbind {A B : Type} (r : result A) (k : A -> result B) : result B :=
  match r with
  | Ok a => k a
  | Raise e => Raise e
  end.

Notation "'do' x <- r ; k" := (rbind r (fun x => k))
  (at level 10, x name, r at level 100, k at level 200).

(** [rmap f l]: a list comprehension whose body may raise; the first
    exception, in iteration order, is the one that propagates. *)
Fixpoint rmap {A B : Type} (f : A -> result B) (l : list A) : result (list B) :=
  match l with
  | [] => Ok []
  | a :: l' => do b <- f a; do bs <- rmap f l'; Ok (b :: bs)
  end.

(* ===================================================================== *)
(** * The numpy operations the scripts use *)
(* ===================================================================== *)

Module Np.

(** Number of elements of [np.arange(start, stop, step)], [step <> 0]:
    the ceiling of [(stop - start) / step], never negative. *)
Definition arange_len (start stop step : Z) : nat :=
  Z.to_nat (- ((start - stop) / step)).

Definition arange_elems (start stop step : Z) : list Z :=
  map (fun i : nat => start + Z.of_nat i * step)
      (seq 0 (arange_len start stop step)).

(** [np.arange] on integers; a zero step raises. *)
Definition arange (start stop step : Z) : result (list Z) :=
  if step =? 0 then Raise ZeroDivisionError
  else Ok (arange_elems start stop step).

(** [a[i]] for one integer index: negative indices count from the end,
    anything outside [-len, len) raises [IndexError]. *)
Definition get {A : Type} (a : list A) (i : Z) : result A :=
  let n := Z.of_nat (length a) in
  let k := if i <? 0 then i + n else i in
  if (0 <=? k) && (k <? n) then
    match a !! Z.to_nat k with
    | Some x => Ok x
    | None => Raise IndexError
    end
  else Raise IndexError.

(** [a[idx]] for a one-dimensional integer index array. *)
Definition take {A : Type} (a : list A) (idx : list Z) : result (list A) :=
  rmap (get a) idx.

(** [a[idx]] for a two-dimensional integer index array. *)
Definition take2 {A : Type} (a : list A) (idx : list (list Z))
  : result (list (list A)) :=
  rmap (take a) idx.

(** [np.where(mask)[0]]: the positions at which the mask holds. *)
Fixpoint where_from (i : nat) (mask : list bool) : list nat :=
  match mask with
  | [] => []
  | b :: mask' =>
      if b then i :: where_from (S i) mask' else where_from (S i) mask'
  end.

Definition where_ (mask : list bool) : list nat := where_from 0 mask.

(** [a[meta]] where [meta] holds positions known to be in range (the
    meta-indices produced by [where_]); a position out of range raises. *)
Definition select {A : Type} (a : list A) (meta : list nat) : result (list A) :=
  rmap (fun p : nat => match a !! p with
                       | Some x => Ok x
                       | None => Raise IndexError
                       end) meta.

(** [np.random.choice(a, size, replace=False)].  numpy draws a permutation
    of [range(len(a))] from the global generator and returns the elements of
    [a] at its first [size] positions; [draw] is that permutation.  A
    negative size, or a size above the population, raises [ValueError]. *)
Definition random_choice {A : Type} (draw : list nat) (a : list A) (size : Z)
  : result (list A) :=
  if size <? 0 then Raise ValueError
  else if Z.of_nat (length a) <? size then Raise ValueError
  else select a (firstn (Z.to_nat size) draw).

(** [np.sort] on an array of positions. *)
Definition sort (l : list nat) : list nat := merge_sort Nat.le l.

(** Slices [a[start:stop]], [a[start:]] and [a[:stop]] for any integer
    bound: a negative bound counts from the end and is clipped at the
    beginning of the array, a bound past the end is clipped by [firstn] and
    [skipn]. *)
Definition norm_bound {A : Type} (a : list A) (k : Z) : nat :=
  if k <? 0 then Z.to_nat (Z.max 0 (Z.of_nat (length a) + k)) else Z.to_nat k.

Definition slice {A : Type} (a : list A) (start stop : Z) : list A :=
  let i := norm_bound a start in
  let j := norm_bound a stop in
  firstn (j - i) (skipn i a).

Definition slice_from {A : Type} (a : list A) (start : Z) : list A :=
  skipn (norm_bound a start) a.

Definition slice_to {A : Type} (a : list A) (stop : Z) : list A :=
  firstn (norm_bound a stop) a.

End Np.

(** [int(x)] on a real number: truncation towards zero. *)
Definition py_int (x : Q) : Z := Z.quot (Qnum x) (Zpos (Qden x)).

(* ===================================================================== *)
(** * classic_dl/lstm/utils.py *)
(* ===================================================================== *)

Module Utils.

(** The part of [generate_indices] before [if subsample:]. *)
Definition window_indices (len_data length target_steps_ahead sampling_rate
                           stride start_index : Z)
  : result (list (list Z) * list Z) :=
  let start_index := start_index + length in
  if stride =? 0 then Raise ZeroDivisionError
  else
    let number_of_sequences :=
      (len_data - start_index - target_steps_ahead) / stride in
    let end_index :=
      start_index + number_of_sequences * stride + target_steps_ahead in
    if end_index <? start_index then Raise ValueError
    else
      do idxs <- Np.arange start_index (end_index - target_steps_ahead + 1) stride;
      do inputs_indices_seq <-
        rmap (fun idx => Np.arange (idx - length) idx sampling_rate) idxs;
      do target_indices_seq <-
        Np.arange (start_index + target_steps_ahead - 1) end_index stride;
      Ok (inputs_indices_seq, target_indices_seq).

(** The body of [if subsample:]; [draw] is the permutation that
    [np.random.choice] takes from the global generator. *)
Definition subsample_indices (draw : list nat) (targets0 : list Q)
    (subsampling_cutoff_threshold subsampling_factor : Q)
    (inputs_indices_seq : list (list Z)) (target_indices_seq : list Z)
  : result (list (list Z) * list Z) :=
  do vals <- Np.take targets0 target_indices_seq;
  let positive_meta_idxs :=
    Np.where_ (map (fun v => Qle_bool subsampling_cutoff_threshold v) vals) in
  let negative_meta_idxs :=
    Np.where_ (map (fun v => negb (Qle_bool subsampling_cutoff_threshold v)) vals) in
  let n_positive_class := Z.of_nat (length positive_meta_idxs) in
  let n_negative_class_keep :=
    Z.min (py_int (inject_Z n_positive_class * subsampling_factor)%Q)
          (Z.of_nat (length negative_meta_idxs)) in
  do negative_meta_idxs_keep <-
    Np.random_choice draw negative_meta_idxs n_negative_class_keep;
  let total_meta_idxs_keep :=
    Np.sort (positive_meta_idxs ++ negative_meta_idxs_keep) in
  do inputs_indices_seq <- Np.select inputs_indices_seq total_meta_idxs_keep;
  do target_indices_seq <- Np.select target_indices_seq total_meta_idxs_keep;
  Ok (inputs_indices_seq, target_indices_seq).

(** [generate_indices].  [targets] is the list of target arrays; only the
    first one is read. *)
Definition generate_indices (draw : list nat) (targets : list (list Q))
    (length target_steps_ahead sampling_rate stride start_index : Z)
    (subsample : bool)
    (subsampling_cutoff_threshold subsampling_factor : Q)
  : result (list (list Z) * list Z) :=
  match targets with
  | [] => Raise IndexError
  | targets0 :: _ =>
      let len_data := Z.of_nat (List.length targets0) in
      do seqs <-
        window_indices len_data length target_steps_ahead sampling_rate
                       stride start_index;
      let '(inputs_indices_seq, target_indices_seq) := seqs in
      if subsample then
        subsample_indices draw targets0 subsampling_cutoff_threshold
                          subsampling_factor
                          inputs_indices_seq target_indices_seq
      else Ok (inputs_indices_seq, target_indices_seq)
  end.

(** ** [generate_sequences]

    A run of the generator is the list of the values it yields, in order,
    together with the way it ends: normally, or with an exception raised
    after the values before it were yielded. *)
Section Generator.

Context {A : Type}.

Inductive yielded : Type :=
| YieldCount (n_batches : Z)
| YieldBatch (output_sequences : list (list (list A)))
             (output_targets : list (list Q)).

Definition gen (R : Type) : Type := (list yielded * result R)%type.

Definition gret {R : Type} (r : R) : gen R := ([], Ok r).

Definition gbind {R S : Type} (g : gen R) (k : R -> gen S) : gen S :=
  match g with
  | (ys, Ok r) => let '(ys', s) := k r in (ys ++ ys', s)
  | (ys, Raise e) => (ys, Raise e)
  end.

Definition gyield (y : yielded) : gen unit := ([y], Ok tt).

Definition glift {R : Type} (r : result R) : gen R := ([], r).

Fixpoint gfor {B : Type} (l : list B) (body : B -> gen unit) : gen unit :=
  match l with
  | [] => gret tt
  | b :: l' => gbind (body b) (fun _ => gfor l' body)
  end.

(** [batch_size] after [if batch_size == -1: batch_size = np.inf]. *)
Inductive batch : Set :=
| Finite (b : Z)
| Infinite.

Definition batch_of (batch_size : Z) : batch :=
  if batch_size =? -1 then Infinite else Finite batch_size.

(** [int(n // batch_size)] and [int(n % batch_size)] for a length [n]. *)
Definition floordiv_batch (n : Z) (bs : batch) : result Z :=
  match bs with
  | Finite b => if b =? 0 then Raise ZeroDivisionError else Ok (n / b)
  | Infinite => Ok 0
  end.

Definition mod_batch (n : Z) (bs : batch) : result Z :=
  match bs with
  | Finite b => if b =? 0 then Raise ZeroDivisionError else Ok (n mod b)
  | Infinite => Ok n
  end.

(** [a[b * batch_size : b * batch_size + batch_size]]; with
    [batch_size = np.inf] the bounds are floats and the slice raises. *)
Definition batch_slice {B : Type} (a : list B) (b : Z) (bs : batch)
  : result (list B) :=
  match bs with
  | Finite sz =>
      let strt := b * sz in
      let stop := strt + sz in
      Ok (Np.slice a strt stop)
  | Infinite => Raise TypeError
  end.

(** [range(n)]. *)
Definition range (n : Z) : list Z := map Z.of_nat (seq 0 (Z.to_nat n)).

Definition yield_batch (inputs : list (list A)) (targets : list (list Q))
    (iis : list (list Z)) (tis : list Z) : gen unit :=
  gbind (glift (rmap (fun i_ => Np.take2 i_ iis) inputs))
    (fun output_sequences =>
  gbind (glift (rmap (fun t_ => Np.take t_ tis) targets))
    (fun output_targets =>
  gyield (YieldBatch output_sequences output_targets))).

(** [for e in range(epochs): ...]; [perms e] is the permutation that
    [np.random.permutation] draws in epoch [e]. *)
Fixpoint epoch_loop (inputs : list (list A)) (targets : list (list Q))
    (shuffle : bool) (perms : nat -> list nat) (bs : batch)
    (n_batches_full n_residual_samples : Z) (es : list nat)
    (inputs_indices_seq : list (list Z)) (target_indices_seq : list Z)
  : gen unit :=
  match es with
  | [] => gret tt
  | e :: es' =>
      gbind
        (if shuffle then
           glift (do iis <- Np.select inputs_indices_seq (perms e);
                  do tis <- Np.select target_indices_seq (perms e);
                  Ok (iis, tis))
         else gret (inputs_indices_seq, target_indices_seq))
        (fun seqs =>
      let '(inputs_indices_seq, target_indices_seq) := seqs in
      gbind
        (gfor (range n_batches_full) (fun b =>
           gbind (glift (batch_slice inputs_indices_seq b bs)) (fun iis =>
           gbind (glift (batch_slice target_indices_seq b bs)) (fun tis =>
           yield_batch inputs targets iis tis))))
        (fun _ =>
      gbind
        (if 0 <? n_residual_samples then
           let strt :=
             Z.of_nat (List.length target_indices_seq) - n_residual_samples in
           let iis := Np.slice_from inputs_indices_seq strt in
           let tis := Np.slice_from target_indices_seq strt in
           yield_batch inputs targets iis tis
         else gret tt)
        (fun _ =>
      epoch_loop inputs targets shuffle perms bs
                 n_batches_full n_residual_samples es'
                 inputs_indices_seq target_indices_seq)))
  end.

Definition generate_sequences (draw : list nat) (perms : nat -> list nat)
    (inputs : list (list A)) (targets : list (list Q))
    (length target_steps_ahead sampling_rate stride start_index : Z)
    (shuffle : bool) (epochs batch_size : Z) (subsample : bool)
    (subsampling_cutoff_threshold subsampling_factor : Q)
  : gen unit :=
  if stride <? 1 then glift (Raise ValueError)
  else
    let bs := batch_of batch_size in
    gbind (glift (generate_indices draw targets length target_steps_ahead
                    sampling_rate stride start_index subsample
                    subsampling_cutoff_threshold subsampling_factor))
      (fun seqs =>
    let '(inputs_indices_seq, target_indices_seq) := seqs in
    let n := Z.of_nat (List.length target_indices_seq) in
    gbind (glift (floordiv_batch n bs)) (fun n_batches_full =>
    gbind (glift (mod_batch n bs)) (fun n_residual_samples =>
    let n_batches_full :=
      if 0 <? n_residual_samples then n_batches_full + 1
      else n_batches_full in
    gbind (gyield (YieldCount n_batches_full)) (fun _ =>
    epoch_loop inputs targets shuffle perms bs
               n_batches_full n_residual_samples
               (seq 0 (Z.to_nat epochs))
               inputs_indices_seq target_indices_seq)))).

End Generator.

Arguments yielded : clear implicits.
Arguments gen : clear implicits.

End Utils.

(** The vocabulary of the subsampling property: with [vals] the target values
    of the windows before subsampling, a window (a position in [vals]) is
    positive when its value reaches the threshold and negative otherwise. *)
Module Subsampling.

Definition is_positive (threshold : Q) (vals : list Q) (p : nat) : bool :=
  match vals !! p with
  | Some v => Qle_bool threshold v
  | None => false
  end.

Definition is_negative (threshold : Q) (vals : list Q) (p : nat) : bool :=
  match vals !! p with
  | Some v => negb (Qle_bool threshold v)
  | None => false
  end.

Definition n_positive (threshold : Q) (vals : list Q) : nat :=
  List.length (List.filter (fun v => Qle_bool threshold v) vals).

Definition n_negative (threshold : Q) (vals : list Q) : nat :=
  List.length (List.filter (fun v => negb (Qle_bool threshold v)) vals).

End Subsampling.

(* ===================================================================== *)
(** * data_description/explore_data.py *)
(* ===================================================================== *)

Module ExploreData.

(** One entry of the [seizures] dictionary.  An entry is created with
    ['start_idx'] only; the other three keys are set when the end of the
    seizure is met. *)
Record seizure : Set := mk_seizure {
  start_idx : Z;
  end_idx : option Z;
  duration : option Z;
  clip_location : option Z
}.

(** The dictionary [seizures] and the counter [k].  The key
    [f"seizure{k}"] is represented by [k]. *)
Record state : Type := mk_state {
  seizures : gmap Z seizure;
  k : Z
}.

(** One clip: [data['time_of_day_sec'].shape[0]] and [data['szr_bool']]. *)
Record clip : Set := mk_clip {
  n_timestamps : nat;
  szr_bool : list bool
}.

(** [data['szr_bool'][i]] for an index [i >= 0]. *)
Definition label (szr : list bool) (i : nat) : result bool :=
  match szr !! i with
  | Some b => Ok b
  | None => Raise IndexError
  end.

(** The body of [for i in range(1, ...)], [1 <= i]. *)
Definition scan_step (szr : list bool) (c : Z) (i : nat) (st : state)
  : result state :=
  do cur <- label szr i;
  do prev <- label szr (i - 1);
  let st1 :=
    if cur && negb prev then
      mk_state (<[k st := mk_seizure (Z.of_nat i - 1) None None None]>
                  (seizures st))
               (k st)
    else st in
  if negb cur && prev then
    match seizures st1 !! k st1 with
    | None => Raise KeyError
    | Some s =>
        let e := Z.of_nat i - 1 in
        let s' := mk_seizure (start_idx s) (Some e) (Some (e - start_idx s))
                             (Some c) in
        Ok (mk_state (<[k st1 := s']> (seizures st1)) (k st1 + 1))
    end
  else Ok st1.

Fixpoint scan_from (szr : list bool) (c : Z) (i count : nat) (st : state)
  : result state :=
  match count with
  | O => Ok st
  | S count' => do st' <- scan_step szr c i st; scan_from szr c (S i) count' st'
  end.

(** [for i in range(1, data['time_of_day_sec'].shape[0]): ...] on clip
    number [c]. *)
Definition scan_clip (d : clip) (c : Z) (st : state) : result state :=
  scan_from (szr_bool d) c 1 (n_timestamps d - 1) st.

(** [for c in range(1, n_clip+1): ...] over the loaded clips. *)
Fixpoint scan_clips (ds : list clip) (c : Z) (st : state) : result state :=
  match ds with
  | [] => Ok st
  | d :: ds' => do st' <- scan_clip d c st; scan_clips ds' (c + 1) st'
  end.

(** [seizures = {}], [k = 1]. *)
Definition initial : state := mk_state ∅ 1.

Definition explore (ds : list clip) : result state := scan_clips ds 1 initial.



(** ** The invariant of the scan

    A dictionary entry that records the run of [True] labels [a..b] of clip
    number [c]. *)
Definition records (szr : list bool) (c : Z) (s : seizure) (a b : nat) : Prop :=
  (1 <= a <= b)%nat /\
  szr !! (a - 1)%nat = Some false /\
  szr !! (b + 1)%nat = Some false /\
  (forall j, (a <= j <= b)%nat -> szr !! j = Some true) /\
  start_idx s = Z.of_nat a - 1 /\
  end_idx s = Some (Z.of_nat b) /\
  duration s = Some (Z.of_nat b - Z.of_nat a + 1) /\
  clip_location s = Some c.

(** The entry under the current key when label [i - 1] is the last one
    read: absent unless a seizure is going on, in which case it holds the
    start of the run that reaches [i - 1]. *)
Definition pending (szr : list bool) (i : nat) (o : option seizure) : Prop :=
  match o with
  | None =>
      szr !! (i - 1)%nat = Some true -> forall j, (j < i)%nat -> szr !! j = Some true
  | Some s =>
      end_idx s = None /\
      exists a : nat,
        (1 <= a <= i - 1)%nat /\ start_idx s = Z.of_nat a - 1 /\
        szr !! (a - 1)%nat = Some false /\
        forall j, (a <= j <= i - 1)%nat -> szr !! j = Some true
  end.

(** What holds before label [i] is read, [k0] being the key at the start of
    the scan. *)
Definition scan_inv (szr : list bool) (c k0 : Z) (i : nat) (st : state) : Prop :=
  k0 <= k st /\
  (forall key, k st < key -> seizures st !! key = None) /\
  (forall key s, k0 <= key < k st -> seizures st !! key = Some s ->
                 exists a b, records szr c s a b) /\
  pending szr i (seizures st !! k st).

(** The labels [a..b] form a run of [True] with a [False] label on either
    side. *)
Definition bounded_run (szr : list bool) (a b : nat) : Prop :=
  (1 <= a <= b)%nat /\
  szr !! (a - 1)%nat = Some false /\
  szr !! (b + 1)%nat = Some false /\
  (forall j, (a <= j <= b)%nat -> szr !! j = Some true).

(** What the entries below the current key are before label [i] is read:
    runs whose closing [False] label was read, all of them, under consecutive
    keys and in temporal order. *)
Definition scan_found (szr : list bool) (c k0 : Z) (i : nat) (st : state) : Prop :=
  (forall key s, k0 <= key < k st -> seizures st !! key = Some s ->
                 exists a b, records szr c s a b /\ (b + 1 < i)%nat) /\
  (forall key, k0 <= key < k st -> is_Some (seizures st !! key)) /\
  (forall a b, bounded_run szr a b -> (b + 1 < i)%nat ->
               exists key s, k0 <= key < k st /\ seizures st !! key = Some s /\
                             records szr c s a b) /\
  (forall key1 key2 s1 s2 e1,
      k0 <= key1 -> key1 < key2 -> key2 < k st ->
      seizures st !! key1 = Some s1 -> seizures st !! key2 = Some s2 ->
      end_idx s1 = Some e1 -> e1 < start_idx s2).

End ExploreData.

(* ===================================================================== *)
(** * classic_ml/svm/svm.py *)
(* ===================================================================== *)

Module Svm.

Local Open Scope Q_scope.

(** [np.cumsum]. *)
Fixpoint cumsum_from (acc : Q) (l : list Q) : list Q :=
  match l with
  | [] => []
  | x :: l' => (acc + x) :: cumsum_from (acc + x) l'
  end.

Definition cumsum (l : list Q) : list Q :=
  match l with
  | [] => []
  | x :: l' => x :: cumsum_from x l'
  end.

(** [a - b] on one-dimensional arrays, with numpy's broadcasting: equal
    lengths, or one operand of length one; other shapes raise. *)
Fixpoint zip_sub (a b : list Q) : list Q :=
  match a, b with
  | x :: a', y :: b' => (x - y) :: zip_sub a' b'
  | _, _ => []
  end.

Definition np_sub (a b : list Q) : result (list Q) :=
  if Nat.eqb (List.length a) (List.length b) then Ok (zip_sub a b)
  else match a, b with
       | [x], _ => Ok (map (fun y => x - y) b)
       | _, [y] => Ok (map (fun x => x - y) a)
       | _, _ => Raise ValueError
       end.

(** [running_mean(x, N)]. *)
Definition running_mean (x : list Q) (N : Z) : result (list Q) :=
  let cumsum := cumsum (0 :: x) in
  do diff <- np_sub (Np.slice_from cumsum N) (Np.slice_to cumsum (- N));
  Ok (map (fun d => d / inject_Z N) diff).

(** The sliding mean as it is defined: the [i]-th value is the arithmetic
    mean of [x[i], ..., x[i+N-1]]. *)
Definition sum (l : list Q) : Q := fold_right Qplus 0 l.

Definition window_mean (x : list Q) (N i : nat) : Q :=
  sum (firstn N (skipn i x)) / inject_Z (Z.of_nat N).

Definition naive_sliding_mean (x : list Q) (N : nat) : list Q :=
  map (window_mean x N) (seq 0 (List.length x - N + 1)).

End Svm.

(* ===================================================================== *)
(** * Properties *)
(* ===================================================================== *)

(** ** Exceptions and comprehensions *)

Lemma rbind_Ok {A B : Type} (r : result A) (k : A -> result B) (b : B) :
  rbind r k = Ok b -> exists a, r = Ok a /\ k a = Ok b.
Proof. destruct r as [a|e]; simpl; intros H; [eauto | discriminate]. Qed.

Ltac inv_bind H :=
  let x := fresh "x" in
  let Hx := fresh "Hx" in
  apply rbind_Ok in H; destruct H as (x & Hx & H).

Lemma rmap_Forall2 {A B : Type} (f : A -> result B) (l : list A) (l' : list B) :
  rmap f l = Ok l' <-> Forall2 (fun a b => f a = Ok b) l l'.
Proof.
  revert l'. induction l as [|a l IH]; intros l'; simpl.
  - split; intros H.
    + injection H as <-. constructor.
    + inversion H. reflexivity.
  - split; intros H.
    + inv_bind H. inv_bind H. injection H as <-.
      constructor; [assumption | now apply IH].
    + inversion H as [|? b ? bs Hab Hrest]; subst.
      rewrite Hab. simpl. apply IH in Hrest. rewrite Hrest. reflexivity.
Qed.

Lemma rmap_total {A B : Type} (f : A -> result B) (g : A -> B) (l : list A) :
  (forall a, In a l -> f a = Ok (g a)) -> rmap f l = Ok (map g l).
Proof.
  induction l as [|a l IH]; intros H; simpl; [reflexivity|].
  rewrite (H a (or_introl eq_refl)). simpl.
  rewrite IH; [reflexivity | intros; apply H; now right].
Qed.

Lemma rmap_length {A B : Type} (f : A -> result B) (l : list A) (l' : list B) :
  rmap f l = Ok l' -> length l' = length l.
Proof. intros H. apply rmap_Forall2 in H. symmetry. eapply Forall2_length, H. Qed.

(** ** [np.arange] *)

Lemma arange_elems_length (a b s : Z) :
  length (Np.arange_elems a b s) = Np.arange_len a b s.
Proof. unfold Np.arange_elems. now rewrite length_map, length_seq. Qed.

Lemma arange_elems_lookup (a b s : Z) (j : nat) (x : Z) :
  Np.arange_elems a b s !! j = Some x <->
  (j < Np.arange_len a b s)%nat /\ x = a + Z.of_nat j * s.
Proof.
  unfold Np.arange_elems. rewrite list_lookup_fmap.
  split.
  - intros H. destruct (seq 0 _ !! j) as [i|] eqn:E; [|discriminate].
    apply lookup_seq in E as [-> Hlt]. simpl in H. injection H as <-. auto.
  - intros [Hlt ->]. rewrite (lookup_seq_lt _ _ _ Hlt). reflexivity.
Qed.

Lemma arange_len_shift (a b a' b' s : Z) :
  a - b = a' - b' -> Np.arange_len a b s = Np.arange_len a' b' s.
Proof. unfold Np.arange_len. now intros ->. Qed.

Lemma arange_len_steps (a q s : Z) :
  1 <= s -> Np.arange_len a (a + q * s + 1) s = Z.to_nat (q + 1).
Proof.
  intros Hs. unfold Np.arange_len. f_equal.
  replace (a - (a + q * s + 1)) with (-1 + (- q) * s) by lia.
  rewrite Z.div_add by lia.
  assert (-1 / s = -1) as ->; [|lia].
  symmetry. apply Z.div_unique with (r := s - 1); lia.
Qed.

Lemma arange_elems_bounds_pos (a b s x : Z) :
  0 < s -> In x (Np.arange_elems a b s) -> a <= x < b.
Proof.
  intros Hs Hin. apply list_elem_of_In, list_elem_of_lookup in Hin as [j Hj].
  apply arange_elems_lookup in Hj as [Hlt ->].
  unfold Np.arange_len in Hlt.
  pose proof (Z.div_mod (a - b) s ltac:(lia)) as Hdm.
  pose proof (Z.mod_pos_bound (a - b) s Hs) as Hr.
  split; [nia|].
  assert (Z.of_nat j + 1 <= - ((a - b) / s)) by lia.
  nia.
Qed.

Lemma arange_elems_neg_step_empty (a b s : Z) :
  s < 0 -> a <= b -> Np.arange_elems a b s = [].
Proof.
  intros Hs Hab. unfold Np.arange_elems, Np.arange_len.
  assert (0 <= (a - b) / s) as H.
  { pose proof (Z.div_mod (a - b) s ltac:(lia)) as Hdm.
    pose proof (Z.mod_neg_bound (a - b) s Hs) as Hr. nia. }
  replace (Z.to_nat (- ((a - b) / s))) with 0%nat by lia. reflexivity.
Qed.

(** ** The windows of [generate_indices] before subsampling *)

Section Windows.

Variables len_data length target_steps_ahead sampling_rate stride start_index : Z.
Variables (ins : list (list Z)) (tg : list Z).

Hypothesis Hwin :
  Utils.window_indices len_data length target_steps_ahead sampling_rate
                       stride start_index = Ok (ins, tg).

Let first_stop := start_index + length.
Let number_of_sequences := (len_data - first_stop - target_steps_ahead) / stride.

Lemma window_indices_inv :
  stride <> 0 /\ 0 <= number_of_sequences * stride + target_steps_ahead /\
  tg = Np.arange_elems (first_stop + target_steps_ahead - 1)
         (first_stop + number_of_sequences * stride + target_steps_ahead) stride /\
  Forall2 (fun idx w => Np.arange (idx - length) idx sampling_rate = Ok w)
          (Np.arange_elems first_stop
             (first_stop + number_of_sequences * stride + 1) stride) ins.
Proof.
  unfold Utils.window_indices in Hwin.
  destruct (stride =? 0) eqn:Es; [discriminate|].
  apply Z.eqb_neq in Es.
  fold first_stop in Hwin. fold number_of_sequences in Hwin.
  destruct (_ <? first_stop) eqn:Ee in Hwin; [discriminate|].
  apply Z.ltb_ge in Ee.
  unfold Np.arange at 1 3 in Hwin.
  apply Z.eqb_neq in Es. rewrite Es in Hwin. simpl in Hwin.
  inv_bind Hwin. injection Hwin as <- <-.
  apply Z.eqb_neq in Es.
  repeat split; [assumption | lia | ].
  apply rmap_Forall2 in Hx.
  replace (first_stop + number_of_sequences * stride + 1)
    with (first_stop + number_of_sequences * stride + target_steps_ahead
          - target_steps_ahead + 1) by lia.
  exact Hx.
Qed.

Lemma window_indices_length : List.length ins = List.length tg.
Proof.
  destruct window_indices_inv as (_ & _ & -> & HF).
  apply Forall2_length in HF. rewrite <- HF.
  rewrite !arange_elems_length. apply arange_len_shift. lia.
Qed.

Lemma window_indices_target (j : nat) (t : Z) :
  tg !! j = Some t ->
  t = start_index + Z.of_nat j * stride + length + target_steps_ahead - 1.
Proof.
  destruct window_indices_inv as (_ & _ & -> & _).
  intros H. apply arange_elems_lookup in H as [_ ->].
  unfold first_stop. lia.
Qed.

Lemma window_indices_window (j : nat) (w : list Z) :
  ins !! j = Some w ->
  sampling_rate <> 0 /\
  w = Np.arange_elems (start_index + Z.of_nat j * stride)
        (start_index + Z.of_nat j * stride + length) sampling_rate.
Proof.
  destruct window_indices_inv as (_ & _ & _ & HF).
  intros H.
  destruct (Forall2_lookup_r _ _ _ _ _ HF H) as (idx & Hidx & Hw).
  apply arange_elems_lookup in Hidx as [_ ->].
  unfold Np.arange in Hw.
  destruct (sampling_rate =? 0) eqn:Er; [discriminate|].
  apply Z.eqb_neq in Er. split; [assumption|].
  injection Hw as <-. unfold first_stop. f_equal; lia.
Qed.

Lemma window_indices_count :
  1 <= stride -> List.length tg = Z.to_nat (number_of_sequences + 1).
Proof.
  intros Hs. destruct window_indices_inv as (_ & _ & -> & _).
  rewrite arange_elems_length.
  rewrite <- (arange_len_steps (first_stop + target_steps_ahead - 1)
                number_of_sequences stride) by lia.
  apply arange_len_shift. lia.
Qed.

End Windows.

Lemma window_indices_ok (len_data length target_steps_ahead sampling_rate
                         stride start_index : Z) :
  stride <> 0 -> sampling_rate <> 0 ->
  0 <= (len_data - (start_index + length) - target_steps_ahead) / stride * stride
       + target_steps_ahead ->
  exists ins tg,
    Utils.window_indices len_data length target_steps_ahead sampling_rate
                         stride start_index = Ok (ins, tg).
Proof.
  intros Hs Hr Hq. unfold Utils.window_indices.
  apply Z.eqb_neq in Hs. rewrite Hs.
  destruct (_ <? _) eqn:E; [apply Z.ltb_lt in E; lia|].
  unfold Np.arange at 1 3. rewrite Hs. simpl.
  erewrite (rmap_total _ (fun idx => Np.arange_elems (idx - length) idx sampling_rate)).
  - simpl. eauto.
  - intros idx _. unfold Np.arange. apply Z.eqb_neq in Hr. now rewrite Hr.
Qed.

(** ** Selection by meta-indices *)

Lemma select_Forall2 {A : Type} (a : list A) (meta : list nat) (r : list A) :
  Np.select a meta = Ok r <-> Forall2 (fun p x => a !! p = Some x) meta r.
Proof.
  unfold Np.select. rewrite rmap_Forall2.
  split; intros H; (eapply Forall2_impl; [exact H|]); simpl; intros p x Hp.
  - destruct (a !! p); [now injection Hp as -> | discriminate].
  - now rewrite Hp.
Qed.

Lemma select_ok {A : Type} (a : list A) (meta : list nat) :
  Forall (fun p => (p < List.length a)%nat) meta -> exists r, Np.select a meta = Ok r.
Proof.
  induction 1 as [|p meta Hp _ [r IH]].
  - exists []. reflexivity.
  - apply lookup_lt_is_Some in Hp as [x Hx]. exists (x :: r).
    apply select_Forall2. constructor; [assumption | now apply select_Forall2].
Qed.

(** ** Inversion of [generate_indices] *)

Lemma generate_indices_inv (draw : list nat) (targets : list (list Q))
    (length tsa sr stride si : Z) (subsample : bool) (thr f : Q)
    (ins : list (list Z)) (tg : list Z) :
  Utils.generate_indices draw targets length tsa sr stride si subsample thr f
    = Ok (ins, tg) ->
  exists targets0 rest ins0 tg0,
    targets = targets0 :: rest /\
    Utils.window_indices (Z.of_nat (List.length targets0)) length tsa sr stride si
      = Ok (ins0, tg0) /\
    if subsample
    then Utils.subsample_indices draw targets0 thr f ins0 tg0 = Ok (ins, tg)
    else ins = ins0 /\ tg = tg0.
Proof.
  unfold Utils.generate_indices. destruct targets as [|targets0 rest]; [discriminate|].
  intros H. inv_bind H. destruct x as [ins0 tg0].
  exists targets0, rest, ins0, tg0. split; [reflexivity|]. split; [assumption|].
  destruct subsample; [assumption|]. now injection H as <- <-.
Qed.

Lemma subsample_indices_inv (draw : list nat) (targets0 : list Q) (thr f : Q)
    (ins0 : list (list Z)) (tg0 : list Z) (ins : list (list Z)) (tg : list Z) :
  Utils.subsample_indices draw targets0 thr f ins0 tg0 = Ok (ins, tg) ->
  exists vals negative_keep,
    Np.take targets0 tg0 = Ok vals /\
    let positive := Np.where_ (map (fun v => Qle_bool thr v) vals) in
    let negative := Np.where_ (map (fun v => negb (Qle_bool thr v)) vals) in
    Np.random_choice draw negative
      (Z.min (py_int (inject_Z (Z.of_nat (List.length positive)) * f)%Q)
             (Z.of_nat (List.length negative))) = Ok negative_keep /\
    Np.select ins0 (Np.sort (positive ++ negative_keep)) = Ok ins /\
    Np.select tg0 (Np.sort (positive ++ negative_keep)) = Ok tg.
Proof.
  unfold Utils.subsample_indices. intros H.
  inv_bind H. rename x into vals, Hx into Hvals.
  inv_bind H. rename x into nk, Hx into Hnk.
  inv_bind H. inv_bind H. injection H as <- <-.
  exists vals, nk. auto.
Qed.

(** ** Number of windows *)

(** C1.  With [start_index = 0], [target_steps_ahead = 0], no subsampling, a
    window length [W >= 1], a stride [S >= 1] and a targets array of length
    [L >= W], [generate_indices] returns exactly [floor((L - W) / S) + 1]
    input windows and as many target indices.  The sampling rate is any
    non-zero step (its default is 1). *)
Theorem generate_indices_count (draw : list nat) (targets0 : list Q)
    (rest : list (list Q)) (W S sampling_rate : Z) (thr f : Q) :
  let L := Z.of_nat (List.length targets0) in
  1 <= W -> 1 <= S -> W <= L -> sampling_rate <> 0 ->
  exists ins tg,
    Utils.generate_indices draw (targets0 :: rest) W 0 sampling_rate S 0 false thr f
      = Ok (ins, tg) /\
    Z.of_nat (List.length ins) = (L - W) / S + 1 /\
    Z.of_nat (List.length tg) = (L - W) / S + 1.
Proof.
  intros L HW HS HL Hr.
  assert (0 <= (L - W) / S) as Hq by (apply Z.div_pos; lia).
  destruct (window_indices_ok L W 0 sampling_rate S 0) as (ins & tg & Hwin);
    [lia | assumption | |].
  { replace (L - (0 + W) - 0) with (L - W) by lia. nia. }
  exists ins, tg. unfold Utils.generate_indices. fold L. rewrite Hwin. simpl.
  split; [reflexivity|].
  rewrite (window_indices_length _ _ _ _ _ _ _ _ Hwin).
  rewrite (window_indices_count _ _ _ _ _ _ _ _ Hwin HS).
  replace (L - (0 + W) - 0) with (L - W) by lia. lia.
Qed.

Lemma generate_indices_count_witness :
  exists ins tg,
    Utils.generate_indices [] [map inject_Z [3; 1; 4; 1; 5; 9; 2]] 3 0 1 2 0 false
      (1 # 2) 1 = Ok (ins, tg) /\
    Z.of_nat (List.length ins) = 3 /\ Z.of_nat (List.length tg) = 3.
Proof.
  apply (generate_indices_count [] (map inject_Z [3; 1; 4; 1; 5; 9; 2]) [] 3 2 1
           (1 # 2) 1); simpl; lia.
Defined.

(** ** Shape of the windows *)

(** C6.  Without subsampling the [j]-th window is
    [np.arange(start_index + j*stride, start_index + j*stride + length,
    sampling_rate)]; the first indices of two consecutive windows differ by
    [stride]. *)
Theorem generate_indices_window (draw : list nat) (targets : list (list Q))
    (length tsa sampling_rate stride start_index : Z) (thr f : Q)
    (ins : list (list Z)) (tg : list Z) :
  Utils.generate_indices draw targets length tsa sampling_rate stride start_index
    false thr f = Ok (ins, tg) ->
  (forall (j : nat) (w : list Z),
      ins !! j = Some w ->
      Np.arange (start_index + Z.of_nat j * stride)
                (start_index + Z.of_nat j * stride + length) sampling_rate = Ok w) /\
  (forall (j : nat) (w w' : list Z) (a a' : Z),
      ins !! j = Some w -> ins !! S j = Some w' ->
      head w = Some a -> head w' = Some a' -> a' - a = stride).
Proof.
  intros H.
  apply generate_indices_inv in H as (t0 & rest & ins0 & tg0 & -> & Hwin & -> & ->).
  assert (forall (j : nat) (w : list Z), ins0 !! j = Some w ->
            Np.arange (start_index + Z.of_nat j * stride)
              (start_index + Z.of_nat j * stride + length) sampling_rate = Ok w) as Hw.
  { intros j w Hj.
    destruct (window_indices_window _ _ _ _ _ _ _ _ Hwin j w Hj) as [Hr ->].
    unfold Np.arange. apply Z.eqb_neq in Hr. now rewrite Hr. }
  split; [exact Hw|].
  intros j w w' a a' Hj Hj' Ha Ha'.
  apply Hw in Hj, Hj'. unfold Np.arange in Hj, Hj'.
  destruct (sampling_rate =? 0); [discriminate|].
  injection Hj as <-. injection Hj' as <-.
  rewrite head_lookup in Ha, Ha'.
  apply arange_elems_lookup in Ha as [_ ->], Ha' as [_ ->]. lia.
Qed.

Lemma generate_indices_window_witness :
  Np.arange (1 + 1 * 2) (1 + 1 * 2 + 3) 1 = Ok [3; 4; 5].
Proof.
  apply (generate_indices_window [] [map inject_Z [3; 1; 4; 1; 5; 9; 2; 6]]
           3 0 1 2 1 (1 # 2) 1 [[1; 2; 3]; [3; 4; 5]; [5; 6; 7]] [3; 5; 7]
           eq_refl) with (j := 1%nat).
  reflexivity.
Defined.

(** ** [np.where] *)

Lemma where_from_elem (i : nat) (mask : list bool) (p : nat) :
  p ∈ Np.where_from i mask <-> exists j : nat, p = (i + j)%nat /\ mask !! j = Some true.
Proof.
  revert i. induction mask as [|b mask IH]; intros i; simpl.
  - split; [intros H; inversion H | intros (j & _ & H); discriminate].
  - assert (p ∈ Np.where_from (S i) mask <->
            exists j : nat, p = (i + S j)%nat /\ mask !! j = Some true) as IH'.
    { rewrite IH. split; intros (j & -> & Hj); exists j; split; auto; lia. }
    destruct b.
    + rewrite elem_of_cons, IH'. split.
      * intros [-> | (j & -> & Hj)]; [exists 0%nat | exists (S j)]; split; auto; lia.
      * intros ([|j] & -> & Hj); [left; lia | right; eauto].
    + rewrite IH'. split.
      * intros (j & -> & Hj). exists (S j). auto.
      * intros ([|j] & -> & Hj); [discriminate | eauto].
Qed.

Lemma where_elem (mask : list bool) (p : nat) :
  p ∈ Np.where_ mask <-> mask !! p = Some true.
Proof.
  unfold Np.where_. rewrite where_from_elem. split.
  - now intros (j & -> & Hj).
  - intros H. now exists p.
Qed.

Lemma where_from_sorted (i : nat) (mask : list bool) :
  StronglySorted lt (Np.where_from i mask).
Proof.
  revert i. induction mask as [|b mask IH]; intros i; simpl; [constructor|].
  destruct b; [|apply IH].
  constructor; [apply IH|].
  apply Forall_forall. intros p Hp.
  apply where_from_elem in Hp as (j & -> & _). lia.
Qed.

Lemma StronglySorted_lt_NoDup (l : list nat) : StronglySorted lt l -> NoDup l.
Proof.
  induction 1 as [|x l _ IH Hx]; constructor; [|assumption].
  intros Hin. rewrite Forall_forall in Hx. specialize (Hx x Hin). lia.
Qed.

Lemma where_NoDup (mask : list bool) : NoDup (Np.where_ mask).
Proof. apply StronglySorted_lt_NoDup, where_from_sorted. Qed.

Lemma where_from_length (i : nat) (mask : list bool) :
  List.length (Np.where_from i mask)
  = List.length (List.filter (fun b : bool => b) mask).
Proof.
  revert i. induction mask as [|b mask IH]; intros i; simpl; [reflexivity|].
  destruct b; simpl; now rewrite IH.
Qed.

Lemma filter_map_length {A B : Type} (g : A -> B) (P : B -> bool) (l : list A) :
  List.length (List.filter P (map g l))
  = List.length (List.filter (fun a => P (g a)) l).
Proof.
  induction l as [|a l IH]; simpl; [reflexivity|].
  destruct (P (g a)); simpl; now rewrite IH.
Qed.

Lemma where_positive_length (thr : Q) (vals : list Q) :
  List.length (Np.where_ (map (fun v => Qle_bool thr v) vals))
  = Subsampling.n_positive thr vals.
Proof.
  unfold Np.where_, Subsampling.n_positive.
  now rewrite where_from_length, filter_map_length.
Qed.

Lemma where_negative_length (thr : Q) (vals : list Q) :
  List.length (Np.where_ (map (fun v => negb (Qle_bool thr v)) vals))
  = Subsampling.n_negative thr vals.
Proof.
  unfold Np.where_, Subsampling.n_negative.
  now rewrite where_from_length, filter_map_length.
Qed.

Lemma where_positive_elem (thr : Q) (vals : list Q) (p : nat) :
  p ∈ Np.where_ (map (fun v => Qle_bool thr v) vals)
  <-> Subsampling.is_positive thr vals p = true.
Proof.
  rewrite where_elem, list_lookup_fmap. unfold Subsampling.is_positive.
  destruct (vals !! p) as [v|]; simpl; [|split; discriminate].
  split; [now intros [= ->] | now intros ->].
Qed.

Lemma where_negative_elem (thr : Q) (vals : list Q) (p : nat) :
  p ∈ Np.where_ (map (fun v => negb (Qle_bool thr v)) vals)
  <-> Subsampling.is_negative thr vals p = true.
Proof.
  rewrite where_elem, list_lookup_fmap. unfold Subsampling.is_negative.
  destruct (vals !! p) as [v|]; simpl; [|split; discriminate].
  split; [now intros [= ->] | now intros ->].
Qed.

Lemma positive_not_negative (thr : Q) (vals : list Q) (p : nat) :
  Subsampling.is_positive thr vals p = true ->
  Subsampling.is_negative thr vals p = false.
Proof.
  unfold Subsampling.is_positive, Subsampling.is_negative.
  destruct (vals !! p); [now intros -> | discriminate].
Qed.

(** ** Target of a window *)

(** C8.  Whenever [generate_indices] returns, with or without subsampling,
    the two arrays have the same first dimension, and the [j]-th target index
    is the exclusive end of the [j]-th window plus [target_steps_ahead - 1]:
    the window is [np.arange(i, i + length, sampling_rate)] for the [i] with
    target index [i + length + target_steps_ahead - 1]. *)
Theorem generate_indices_target (draw : list nat) (targets : list (list Q))
    (length tsa sampling_rate stride start_index : Z) (subsample : bool)
    (thr f : Q) (ins : list (list Z)) (tg : list Z) :
  Utils.generate_indices draw targets length tsa sampling_rate stride start_index
    subsample thr f = Ok (ins, tg) ->
  List.length ins = List.length tg /\
  forall (j : nat) (t : Z),
    tg !! j = Some t ->
    exists (i : Z) (w : list Z),
      ins !! j = Some w /\
      Np.arange i (i + length) sampling_rate = Ok w /\
      t = (i + length) + tsa - 1.
Proof.
  intros H.
  apply generate_indices_inv in H as (t0 & rest & ins0 & tg0 & -> & Hwin & Hsub).
  pose proof (window_indices_length _ _ _ _ _ _ _ _ Hwin) as Hlen0.
  assert (forall (p : nat) (t : Z) (w : list Z),
            tg0 !! p = Some t -> ins0 !! p = Some w ->
            Np.arange (start_index + Z.of_nat p * stride)
              (start_index + Z.of_nat p * stride + length) sampling_rate = Ok w /\
            t = (start_index + Z.of_nat p * stride + length) + tsa - 1) as Hp.
  { intros p t w Ht Hw.
    apply (window_indices_target _ _ _ _ _ _ _ _ Hwin) in Ht.
    destruct (window_indices_window _ _ _ _ _ _ _ _ Hwin p w Hw) as [Hr ->].
    split; [|lia]. unfold Np.arange. apply Z.eqb_neq in Hr. now rewrite Hr. }
  destruct subsample.
  - apply subsample_indices_inv in Hsub as (vals & nk & _ & _ & Hins & Htg).
    apply select_Forall2 in Hins, Htg.
    split.
    { rewrite <- (Forall2_length _ _ _ Hins). apply (Forall2_length _ _ _ Htg). }
    intros j t Hj.
    destruct (Forall2_lookup_r _ _ _ _ _ Htg Hj) as (p & Hkp & Ht).
    destruct (Forall2_lookup_l _ _ _ _ _ Hins Hkp) as (w & Hjw & Hw).
    destruct (Hp p t w Ht Hw) as [Ha ->].
    exists (start_index + Z.of_nat p * stride), w. auto.
  - destruct Hsub as [-> ->]. split; [assumption|].
    intros j t Hj.
    destruct (lookup_lt_is_Some_2 ins0 j) as [w Hw].
    { rewrite Hlen0. eapply lookup_lt_Some, Hj. }
    destruct (Hp j t w Hj Hw) as [Ha ->].
    exists (start_index + Z.of_nat j * stride), w. auto.
Qed.

Lemma generate_indices_target_witness :
  List.length [[0; 1; 2; 3]; [3; 4; 5; 6]] = List.length [5; 8] /\
  forall (j : nat) (t : Z),
    [5; 8] !! j = Some t ->
    exists (i : Z) (w : list Z),
      [[0; 1; 2; 3]; [3; 4; 5; 6]] !! j = Some w /\
      Np.arange i (i + 4) 1 = Ok w /\ t = (i + 4) + 2 - 1.
Proof.
  apply (generate_indices_target [] [map inject_Z [0; 0; 0; 0; 0; 1; 0; 0; 1]]
           4 2 1 3 0 false (1 # 2) 1).
  reflexivity.
Defined.

(** ** The meta-indices kept by subsampling *)

Lemma random_choice_inv {A : Type} (draw : list nat) (a : list A) (size : Z)
    (r : list A) :
  Np.random_choice draw a size = Ok r ->
  0 <= size <= Z.of_nat (List.length a) /\
  Forall2 (fun p x => a !! p = Some x) (firstn (Z.to_nat size) draw) r.
Proof.
  unfold Np.random_choice.
  destruct (size <? 0) eqn:E1; [discriminate|].
  destruct (_ <? size) eqn:E2; [discriminate|].
  apply Z.ltb_ge in E1, E2. intros H. apply select_Forall2 in H. auto.
Qed.

Lemma picked_elem {A : Type} (a : list A) (ps : list nat) (r : list A) (x : A) :
  Forall2 (fun p y => a !! p = Some y) ps r -> x ∈ r -> x ∈ a.
Proof.
  intros HF Hx. apply list_elem_of_lookup in Hx as [i Hi].
  destruct (Forall2_lookup_r _ _ _ _ _ HF Hi) as (p & _ & Hp).
  eapply list_elem_of_lookup_2, Hp.
Qed.

Lemma picked_NoDup {A : Type} (a : list A) (ps : list nat) (r : list A) :
  Forall2 (fun p y => a !! p = Some y) ps r -> NoDup ps -> NoDup a -> NoDup r.
Proof.
  intros HF Hps Ha. apply NoDup_alt. intros i j x Hi Hj.
  destruct (Forall2_lookup_r _ _ _ _ _ HF Hi) as (p & Hpi & Hp).
  destruct (Forall2_lookup_r _ _ _ _ _ HF Hj) as (q & Hqj & Hq).
  assert (p = q) as <- by exact (NoDup_lookup a p q x Ha Hp Hq).
  exact (NoDup_lookup ps i j p Hps Hpi Hqj).
Qed.

Lemma StronglySorted_le_lt (l : list nat) :
  StronglySorted Nat.le l -> NoDup l -> StronglySorted lt l.
Proof.
  induction 1 as [|x l _ IH Hx]; intros Hnd; [constructor|].
  apply NoDup_cons in Hnd as [Hxl Hnd].
  constructor; [now apply IH|].
  rewrite Forall_forall in Hx |- *. intros y Hy.
  specialize (Hx y Hy). unfold Nat.le in Hx.
  assert (x <> y) by (intros ->; apply Hxl; now apply list_elem_of_In).
  lia.
Qed.

Lemma sort_sorted (l : list nat) : NoDup l -> StronglySorted lt (Np.sort l).
Proof.
  intros Hnd. apply StronglySorted_le_lt.
  - unfold Np.sort. apply StronglySorted_merge_sort.
    + intros x y z. unfold Nat.le. lia.
    + intros x y. unfold Nat.le. lia.
  - unfold Np.sort. now rewrite merge_sort_Permutation.
Qed.


Section Kept.

Variables (thr : Q) (vals : list Q) (draw : list nat) (size : Z)
          (negative_keep : list nat).

Let positive := Np.where_ (map (fun v => Qle_bool thr v) vals).
Let negative := Np.where_ (map (fun v => negb (Qle_bool thr v)) vals).

Hypothesis Hchoice : Np.random_choice draw negative size = Ok negative_keep.

Lemma negative_keep_negative (p : nat) :
  p ∈ negative_keep -> Subsampling.is_negative thr vals p = true.
Proof.
  intros Hp. apply where_negative_elem.
  destruct (random_choice_inv _ _ _ _ Hchoice) as [_ HF].
  eapply picked_elem; eauto.
Qed.

Lemma kept_NoDup : NoDup draw -> NoDup (positive ++ negative_keep).
Proof.
  intros Hd. apply NoDup_app. split; [apply where_NoDup|]. split.
  - intros p Hp Hn. apply where_positive_elem, positive_not_negative in Hp.
    apply negative_keep_negative in Hn. congruence.
  - destruct (random_choice_inv _ _ _ _ Hchoice) as [_ HF].
    eapply picked_NoDup; [exact HF | | apply where_NoDup].
    eapply sublist_NoDup; [exact Hd | apply sublist_take].
Qed.

Lemma kept_sorted :
  NoDup draw -> StronglySorted lt (Np.sort (positive ++ negative_keep)).
Proof. intros Hd. apply sort_sorted, kept_NoDup, Hd. Qed.

End Kept.

(** ** Range and order of the indices *)

Lemma window_indices_bounds (len_data length tsa sr stride start_index : Z)
    (ins : list (list Z)) (tg : list Z) :
  Utils.window_indices len_data length tsa sr stride start_index = Ok (ins, tg) ->
  1 <= stride -> 0 <= start_index -> 0 <= tsa -> 1 <= length ->
  forall p : nat,
    (forall t, tg !! p = Some t -> 0 <= t < len_data) /\
    (forall w x, ins !! p = Some w -> In x w -> 0 <= x < len_data).
Proof.
  intros Hwin Hs Hsi Htsa Hlen p.
  pose proof (window_indices_length _ _ _ _ _ _ _ _ Hwin) as Hl.
  assert (forall t, tg !! p = Some t ->
            t = start_index + Z.of_nat p * stride + length + tsa - 1 /\
            t < len_data) as Ht.
  { intros t Hp. split; [eapply window_indices_target; eauto|].
    destruct (window_indices_inv _ _ _ _ _ _ _ _ Hwin) as (_ & _ & Htg & _).
    rewrite Htg in Hp. apply list_elem_of_lookup_2, list_elem_of_In in Hp.
    apply arange_elems_bounds_pos in Hp; [|lia].
    pose proof (Z.mul_div_le (len_data - (start_index + length) - tsa) stride
                  ltac:(lia)).
    lia. }
  split.
  - intros t Hp. destruct (Ht t Hp) as [-> Hlt]. split; [nia | assumption].
  - intros w x Hw Hx.
    destruct (lookup_lt_is_Some_2 tg p) as [t Hp].
    { rewrite <- Hl. eapply lookup_lt_Some, Hw. }
    destruct (Ht t Hp) as [Heq Hlt].
    destruct (window_indices_window _ _ _ _ _ _ _ _ Hwin p w Hw) as [Hr ->].
    destruct (Z.lt_total sr 0) as [Hneg | [? | Hpos]]; [|contradiction|].
    + rewrite arange_elems_neg_step_empty in Hx by lia. destruct Hx.
    + apply arange_elems_bounds_pos in Hx; [|assumption]. nia.
Qed.

Lemma window_indices_increasing (len_data length tsa sr stride start_index : Z)
    (ins : list (list Z)) (tg : list Z) :
  Utils.window_indices len_data length tsa sr stride start_index = Ok (ins, tg) ->
  1 <= stride ->
  forall (p q : nat) (t t' : Z),
    (p < q)%nat -> tg !! p = Some t -> tg !! q = Some t' -> t < t'.
Proof.
  intros Hwin Hs p q t t' Hpq Hp Hq.
  apply (window_indices_target _ _ _ _ _ _ _ _ Hwin) in Hp, Hq. nia.
Qed.

Lemma picked_increasing (tg0 : list Z) (keep : list nat) (tg : list Z) :
  (forall (p q : nat) (t t' : Z),
      (p < q)%nat -> tg0 !! p = Some t -> tg0 !! q = Some t' -> t < t') ->
  Forall2 (fun p t => tg0 !! p = Some t) keep tg ->
  StronglySorted lt keep -> StronglySorted Z.lt tg.
Proof.
  intros Hmono HF. induction HF as [|p t keep tg Hp HF IH]; intros Hs;
    [constructor|].
  apply StronglySorted_inv in Hs as [Hs Hall].
  constructor; [now apply IH|].
  apply Forall_forall. intros t' Ht'.
  apply list_elem_of_lookup in Ht' as [i Hi].
  destruct (Forall2_lookup_r _ _ _ _ _ HF Hi) as (q & Hq & Hqt).
  rewrite Forall_forall in Hall.
  apply list_elem_of_lookup_2, Hall in Hq. eauto.
Qed.

Lemma seq_like_sorted (tg : list Z) :
  (forall (p q : nat) (t t' : Z),
      (p < q)%nat -> tg !! p = Some t -> tg !! q = Some t' -> t < t') ->
  StronglySorted Z.lt tg.
Proof.
  induction tg as [|t tg IH]; intros H; [constructor|].
  constructor.
  - apply IH. intros p q u u' Hpq Hp Hq. apply (H (S p) (S q)); auto; lia.
  - apply Forall_forall. intros u Hu.
    apply list_elem_of_lookup in Hu as [i Hi].
    apply (H 0%nat (S i)); auto; lia.
Qed.

(** C9, as stated, fails: nothing keeps [length] positive, and with
    [length = 0] the first target index is [-1]. *)
Lemma generate_indices_range_zero_length :
  Utils.generate_indices [] [map inject_Z [0; 0; 0]] 0 0 1 1 0 false (1 # 2) 1
    = Ok ([[]; []; []; []], [-1; 0; 1; 2]) /\
  1 <= 1 /\ 0 <= 0 /\ 0 <= 0 /\
  ~ Forall (fun t => 0 <= t < Z.of_nat (List.length (map inject_Z [0; 0; 0])))
           [-1; 0; 1; 2].
Proof.
  split; [reflexivity|]. repeat split; try lia.
  intros H. apply Forall_inv in H. lia.
Qed.

(** C9, amended.  With [stride >= 1], [start_index >= 0],
    [target_steps_ahead >= 0] and a window length [length >= 1], whenever
    [generate_indices] returns, with or without subsampling, every index of
    both arrays lies in [[0, len(targets[0]))] and the target indices are
    strictly increasing.  The draw of [np.random.choice] holds no position
    twice, as a permutation does. *)
Theorem generate_indices_range (draw : list nat) (targets0 : list Q)
    (rest : list (list Q)) (length tsa sampling_rate stride start_index : Z)
    (subsample : bool) (thr f : Q) (ins : list (list Z)) (tg : list Z) :
  1 <= stride -> 0 <= start_index -> 0 <= tsa -> 1 <= length -> NoDup draw ->
  Utils.generate_indices draw (targets0 :: rest) length tsa sampling_rate stride
    start_index subsample thr f = Ok (ins, tg) ->
  let L := Z.of_nat (List.length targets0) in
  Forall (fun w => Forall (fun x => 0 <= x < L) w) ins /\
  Forall (fun t => 0 <= t < L) tg /\
  StronglySorted Z.lt tg.
Proof.
  intros Hs Hsi Htsa Hlen Hd H L.
  apply generate_indices_inv in H as (t0 & rest' & ins0 & tg0 & Heq & Hwin & Hsub).
  injection Heq as <- <-. fold L in Hwin.
  pose proof (window_indices_bounds _ _ _ _ _ _ _ _ Hwin Hs Hsi Htsa Hlen) as Hb.
  pose proof (window_indices_increasing _ _ _ _ _ _ _ _ Hwin Hs) as Hmono.
  destruct subsample.
  - apply subsample_indices_inv in Hsub as (vals & nk & _ & Hnk & Hins & Htg).
    apply select_Forall2 in Hins, Htg.
    split; [|split].
    + apply Forall_forall. intros w Hw.
      apply list_elem_of_lookup in Hw as [j Hj].
      destruct (Forall2_lookup_r _ _ _ _ _ Hins Hj) as (p & _ & Hp).
      apply Forall_forall. intros x Hx.
      apply (proj2 (Hb p) w x Hp). now apply list_elem_of_In.
    + apply Forall_forall. intros t Ht.
      apply list_elem_of_lookup in Ht as [j Hj].
      destruct (Forall2_lookup_r _ _ _ _ _ Htg Hj) as (p & _ & Hp).
      apply (proj1 (Hb p) t Hp).
    + eapply picked_increasing; [exact Hmono | exact Htg |].
      eapply kept_sorted; [exact Hnk | exact Hd].
  - destruct Hsub as [-> ->]. split; [|split].
    + apply Forall_forall. intros w Hw.
      apply list_elem_of_lookup in Hw as [p Hp].
      apply Forall_forall. intros x Hx.
      apply (proj2 (Hb p) w x Hp). now apply list_elem_of_In.
    + apply Forall_forall. intros t Ht.
      apply list_elem_of_lookup in Ht as [p Hp].
      apply (proj1 (Hb p) t Hp).
    + apply seq_like_sorted, Hmono.
Qed.

Lemma generate_indices_range_witness :
  Forall (fun w => Forall (fun x => 0 <= x < 6) w) [[0; 1]; [2; 3]; [3; 4]] /\
  Forall (fun t => 0 <= t < 6) [2; 4; 5] /\
  StronglySorted Z.lt [2; 4; 5].
Proof.
  apply (generate_indices_range [2; 0; 1]%nat (map inject_Z [0; 0; 0; 0; 1; 0]) []
           2 1 1 1 0 true (1 # 2) 2 [[0; 1]; [2; 3]; [3; 4]] [2; 4; 5]);
    try lia; [|reflexivity].
  repeat constructor; rewrite ?elem_of_cons, ?elem_of_nil; intuition lia.
Defined.

(** ** What subsampling keeps *)








(** ** Dependence on the random generator *)

(** C3, as stated, fails: with [subsample = True] two calls with the same
    arguments return different arrays when [np.random.choice] draws
    different permutations of the three negative windows. *)
Lemma generate_indices_depends_on_draw :
  [1; 0; 2]%nat ≡ₚ seq 0 3 /\ [0; 1; 2]%nat ≡ₚ seq 0 3 /\
  Utils.generate_indices [1; 0; 2]%nat [map inject_Z [0; 0; 1; 0]] 1 0 1 1 0 true
    (1 # 2) 1 = Ok ([[1]; [2]], [1; 2]) /\
  Utils.generate_indices [0; 1; 2]%nat [map inject_Z [0; 0; 1; 0]] 1 0 1 1 0 true
    (1 # 2) 1 = Ok ([[0]; [2]], [0; 2]) /\
  Utils.generate_indices [1; 0; 2]%nat [map inject_Z [0; 0; 1; 0]] 1 0 1 1 0 true
    (1 # 2) 1
  <> Utils.generate_indices [0; 1; 2]%nat [map inject_Z [0; 0; 1; 0]] 1 0 1 1 0 true
       (1 # 2) 1.
Proof.
  split; [apply perm_swap|]. split; [reflexivity|].
  split; [reflexivity|]. split; [reflexivity|]. discriminate.
Qed.

(** C3, amended.  With [subsample = False] the result of [generate_indices]
    depends on its arguments only: whatever the random generator would draw,
    two calls with the same arguments return the same pair of arrays. *)
Theorem generate_indices_deterministic (draw1 draw2 : list nat)
    (targets : list (list Q)) (length tsa sampling_rate stride start_index : Z)
    (thr f : Q) :
  Utils.generate_indices draw1 targets length tsa sampling_rate stride start_index
    false thr f
  = Utils.generate_indices draw2 targets length tsa sampling_rate stride
      start_index false thr f.
Proof.
  unfold Utils.generate_indices. destruct targets as [|targets0 rest]; [reflexivity|].
  destruct (Utils.window_indices _ _ _ _ _ _) as [[ins tg]|e]; reflexivity.
Qed.

(** ** A stride below one *)

(** C5, as stated, fails for [generate_indices]: it has no check of the
    stride; a negative stride returns two empty arrays, and a zero stride
    raises [ZeroDivisionError]. *)
Lemma generate_indices_negative_stride :
  -1 < 1 /\
  Utils.generate_indices [] [map inject_Z [10; 11; 12; 13; 14]] 2 0 1 (-1) 0 false
    (1 # 2) 1 = Ok ([], []).
Proof. split; [lia | reflexivity]. Qed.

Lemma generate_indices_zero_stride (draw : list nat) (targets0 : list Q)
    (rest : list (list Q)) (length tsa sampling_rate start_index : Z)
    (subsample : bool) (thr f : Q) :
  Utils.generate_indices draw (targets0 :: rest) length tsa sampling_rate 0
    start_index subsample thr f = Raise ZeroDivisionError.
Proof. reflexivity. Qed.

(** C5, amended.  [generate_sequences] called with [stride < 1] raises
    [ValueError] before it yields anything, whatever the other arguments.
    [generate_indices] has no check of the stride of its own: called directly
    with [stride = 0], on a targets list that is not empty, it raises
    [ZeroDivisionError], not [ValueError]. *)
Theorem generate_sequences_stride {A : Type} (draw : list nat)
    (perms : nat -> list nat) (inputs : list (list A)) (targets : list (list Q))
    (targets0 : list Q) (rest : list (list Q))
    (length tsa sampling_rate stride start_index : Z) (shuffle : bool)
    (epochs batch_size : Z) (subsample : bool) (thr f : Q) :
  stride < 1 ->
  Utils.generate_sequences draw perms inputs targets length tsa sampling_rate
    stride start_index shuffle epochs batch_size subsample thr f
  = ([], Raise ValueError) /\
  (stride = 0 ->
   Utils.generate_indices draw (targets0 :: rest) length tsa sampling_rate stride
     start_index subsample thr f = Raise ZeroDivisionError).
Proof.
  intros H. split.
  - unfold Utils.generate_sequences. apply Z.ltb_lt in H. now rewrite H.
  - intros ->. reflexivity.
Qed.

Lemma generate_sequences_stride_witness :
  Utils.generate_sequences [] (fun _ => []) [[100; 101; 102; 103; 104]]
    [map inject_Z [10; 11; 12; 13; 14]] 2 0 1 0 0 false 1 32 false (1 # 2) 1
  = ([], Raise ValueError) /\
  (0 = 0 ->
   Utils.generate_indices [] [map inject_Z [10; 11; 12; 13; 14]] 2 0 1 0 0 false
     (1 # 2) 1 = Raise ZeroDivisionError).
Proof.
  apply (generate_sequences_stride (A := Z) [] (fun _ => [])
           [[100; 101; 102; 103; 104]] [map inject_Z [10; 11; 12; 13; 14]]
           (map inject_Z [10; 11; 12; 13; 14]) []).
  lia.
Defined.

(** ** The batches of [generate_sequences] *)

(** C2 at five samples, windows of length two and batches of three: four
    windows, an announced count of two batches, and three batches yielded,
    the last window twice. *)
Theorem generate_sequences_residual_twice :
  Utils.generate_sequences [] (fun _ => []) [[100; 101; 102; 103; 104]]
    [map inject_Z [10; 11; 12; 13; 14]] 2 0 1 1 0 false 1 3 false (1 # 2) 1
  = ([Utils.YieldCount 2;
      Utils.YieldBatch [[[100; 101]; [101; 102]; [102; 103]]]
                       [map inject_Z [11; 12; 13]];
      Utils.YieldBatch [[[103; 104]]] [map inject_Z [14]];
      Utils.YieldBatch [[[103; 104]]] [map inject_Z [14]]],
     Ok tt).
Proof. reflexivity. Qed.

Lemma gbind_Ok {A R S : Type} (g : Utils.gen A R) (k : R -> Utils.gen A S)
    (ys : list (Utils.yielded A)) (s : S) :
  Utils.gbind g k = (ys, Ok s) ->
  exists ys1 r ys2, g = (ys1, Ok r) /\ k r = (ys2, Ok s) /\ ys = ys1 ++ ys2.
Proof.
  destruct g as [ys1 [r|e]]; simpl; [|discriminate].
  destruct (k r) as [ys2 s'] eqn:Ek. intros [= <- ->]. eauto 6.
Qed.

Lemma glift_Ok {A R : Type} (r : result R) (ys : list (Utils.yielded A)) (x : R) :
  Utils.glift r = (ys, Ok x) -> ys = [] /\ r = Ok x.
Proof. unfold Utils.glift. now intros [= <- ->]. Qed.

Lemma yield_batch_one {A : Type} (inputs : list (list A)) (targets : list (list Q))
    (iis : list (list Z)) (tis : list Z) (ys : list (Utils.yielded A)) (u : unit) :
  Utils.yield_batch inputs targets iis tis = (ys, Ok u) -> List.length ys = 1%nat.
Proof.
  unfold Utils.yield_batch. intros H.
  apply gbind_Ok in H as (ys1 & r1 & ys2 & H1 & H & ->).
  apply glift_Ok in H1 as [-> _].
  apply gbind_Ok in H as (ys3 & r3 & ys4 & H3 & H & ->).
  apply glift_Ok in H3 as [-> _].
  unfold Utils.gyield in H. now injection H as <-.
Qed.

Lemma gfor_one {A B : Type} (body : B -> Utils.gen A unit) (l : list B)
    (ys : list (Utils.yielded A)) (u : unit) :
  (forall b ys' u', body b = (ys', Ok u') -> List.length ys' = 1%nat) ->
  Utils.gfor l body = (ys, Ok u) -> List.length ys = List.length l.
Proof.
  intros Hbody. revert ys. induction l as [|b l IH]; intros ys H; simpl in H.
  - unfold Utils.gret in H. now injection H as <-.
  - apply gbind_Ok in H as (ys1 & r & ys2 & H1 & H2 & ->).
    rewrite length_app, (Hbody _ _ _ H1), (IH _ H2). reflexivity.
Qed.

(** The repeated batch does not depend on the input: whenever the last batch
    is partial, a run that ends normally yields one batch more than the count
    it announced. *)
Lemma generate_sequences_one_more {A : Type} (draw : list nat)
    (perms : nat -> list nat) (inputs : list (list A)) (targets : list (list Q))
    (length tsa sampling_rate stride start_index batch_size : Z) (thr f : Q)
    (ins : list (list Z)) (tg : list Z) (ys : list (Utils.yielded A)) :
  Utils.generate_indices draw targets length tsa sampling_rate stride start_index
    false thr f = Ok (ins, tg) ->
  1 <= batch_size ->
  0 < Z.of_nat (List.length tg) mod batch_size ->
  Utils.generate_sequences draw perms inputs targets length tsa sampling_rate
    stride start_index false 1 batch_size false thr f = (ys, Ok tt) ->
  exists batches,
    ys = (Utils.YieldCount (Z.of_nat (List.length tg) / batch_size + 1) :: batches) /\
    Z.of_nat (List.length batches) = Z.of_nat (List.length tg) / batch_size + 2.
Proof.
  intros Hidx Hbs Hres H. unfold Utils.generate_sequences in H.
  destruct (stride <? 1); [discriminate|].
  rewrite Hidx in H. simpl in H.
  unfold Utils.batch_of in H.
  destruct (batch_size =? -1) eqn:E; [apply Z.eqb_eq in E; lia|].
  unfold Utils.floordiv_batch, Utils.mod_batch in H.
  destruct (batch_size =? 0) eqn:E0; [apply Z.eqb_eq in E0; lia|].
  simpl in H.
  assert ((0 <? Z.of_nat (List.length tg) mod batch_size) = true) as Hlt
    by now apply Z.ltb_lt.
  rewrite Hlt in H.
  set (n := Z.of_nat (List.length tg)) in *.
  destruct (Utils.gfor _ _) as [ys1 [[]|e]] eqn:Efor in H; [|discriminate].
  apply gfor_one in Efor.
  - simpl in H.
    destruct (Utils.yield_batch _ _ _ _) as [ys2 [[]|e]] eqn:Elast in H;
      [|discriminate].
    apply yield_batch_one in Elast.
    simpl in H. injection H as <-.
    exists (ys1 ++ ys2 ++ []). split; [reflexivity|].
    rewrite !length_app, Efor, Elast. unfold Utils.range.
    rewrite length_map, length_seq. simpl.
    assert (0 <= n / batch_size) by (apply Z.div_pos; lia). lia.
  - intros b ys' u' Hb.
    destruct (Utils.yield_batch _ _ _ _) as [y s] eqn:Eb in Hb.
    injection Hb as <- ->. eapply yield_batch_one, Eb.
Qed.

(* ===================================================================== *)
(** * [running_mean] against the sliding mean *)
(* ===================================================================== *)

Section RunningMean.

Local Open Scope Q_scope.

Lemma sum_app (a b : list Q) : Svm.sum (a ++ b) == Svm.sum a + Svm.sum b.
Proof.
  induction a as [|x a IH]; simpl.
  - ring.
  - rewrite IH. ring.
Qed.

Lemma cumsum_from_length (acc : Q) (l : list Q) :
  List.length (Svm.cumsum_from acc l) = List.length l.
Proof. revert acc. induction l as [|x l IH]; intros acc; simpl; auto. Qed.

Lemma cumsum_from_lookup (acc : Q) (l : list Q) (i : nat) (v : Q) :
  Svm.cumsum_from acc l !! i = Some v -> v == acc + Svm.sum (firstn (S i) l).
Proof.
  revert acc i. induction l as [|x l IH]; intros acc i H; [discriminate|].
  destruct i as [|i]; simpl in H.
  - injection H as <-. simpl. destruct l; simpl; ring.
  - apply IH in H. rewrite H.
    change (firstn (S (S i)) (x :: l)) with (x :: firstn (S i) l).
    change (Svm.sum (x :: firstn (S i) l)) with (x + Svm.sum (firstn (S i) l)).
    ring.
Qed.

(** The [i]-th cumulated sum of [np.insert(x, 0, 0)] is the sum of the first
    [i] elements of [x]. *)
Lemma cumsum_insert_lookup (x : list Q) (i : nat) (v : Q) :
  Svm.cumsum (0 :: x) !! i = Some v -> v == Svm.sum (firstn i x).
Proof.
  destruct i as [|i]; simpl; intros H.
  - injection H as <-. reflexivity.
  - apply cumsum_from_lookup in H. rewrite H. ring.
Qed.

Lemma cumsum_insert_length (x : list Q) :
  List.length (Svm.cumsum (0 :: x)) = S (List.length x).
Proof. simpl. now rewrite cumsum_from_length. Qed.

Lemma zip_sub_length (a b : list Q) :
  List.length a = List.length b -> List.length (Svm.zip_sub a b) = List.length a.
Proof.
  revert b. induction a as [|x a IH]; intros [|y b] H; simpl in *;
    try discriminate; auto.
Qed.

Lemma zip_sub_lookup (a b : list Q) (i : nat) (d : Q) :
  Svm.zip_sub a b !! i = Some d ->
  exists u v, a !! i = Some u /\ b !! i = Some v /\ d = u - v.
Proof.
  revert b i. induction a as [|x a IH]; intros [|y b] i H; try discriminate.
  destruct i as [|i]; simpl in H.
  - injection H as <-. exists x, y. auto.
  - apply IH in H. exact H.
Qed.

(** C10.  For a sequence [x] of [n] numbers and a window size [N] with
    [1 <= N <= n], [running_mean(x, N)] returns [n - N + 1] values, the
    [i]-th being the arithmetic mean of [x[i], ..., x[i+N-1]]: the
    cumulative-sum computation equals the sliding mean, in exact
    arithmetic. *)
Theorem running_mean_sliding_mean (x : list Q) (N : nat) :
  (1 <= N <= List.length x)%nat ->
  exists r : list Q,
    Svm.running_mean x (Z.of_nat N) = Ok r /\
    List.length r = (List.length x - N + 1)%nat /\
    Forall2 Qeq r (Svm.naive_sliding_mean x N) /\
    (forall (i : nat) (v : Q),
        r !! i = Some v ->
        v == Svm.sum (firstn N (skipn i x)) / inject_Z (Z.of_nat N)).
Proof.
  intros HN.
  set (c := Svm.cumsum (0 :: x)).
  pose proof (cumsum_insert_length x) as Hc. fold c in Hc.
  assert (Np.slice_from c (Z.of_nat N) = drop N c) as Hfrom.
  { unfold Np.slice_from, Np.norm_bound.
    destruct (Z.of_nat N <? 0)%Z eqn:E; [apply Z.ltb_lt in E; lia|].
    now rewrite Nat2Z.id. }
  assert (Np.slice_to c (- Z.of_nat N) = take (S (List.length x) - N) c) as Hto.
  { unfold Np.slice_to, Np.norm_bound.
    destruct (- Z.of_nat N <? 0)%Z eqn:E; [|apply Z.ltb_ge in E; lia].
    f_equal. rewrite Hc. lia. }
  assert (List.length (drop N c) = List.length (take (S (List.length x) - N) c))
    as Hlen.
  { rewrite length_drop, length_take, Hc. lia. }
  set (diff := Svm.zip_sub (drop N c) (take (S (List.length x) - N) c)).
  set (r := map (fun d => d / inject_Z (Z.of_nat N)) diff).
  assert (Svm.running_mean x (Z.of_nat N) = Ok r) as Hr.
  { unfold Svm.running_mean. fold c. rewrite Hfrom, Hto.
    unfold Svm.np_sub. rewrite Hlen, Nat.eqb_refl. reflexivity. }
  assert (List.length r = (List.length x - N + 1)%nat) as Hlr.
  { unfold r, diff. rewrite length_map, zip_sub_length by exact Hlen.
    rewrite length_drop, Hc. lia. }
  assert (forall (i : nat) (v : Q),
             r !! i = Some v ->
             v == Svm.sum (firstn N (skipn i x)) / inject_Z (Z.of_nat N)) as Hv.
  { intros i v Hi. unfold r in Hi. rewrite list_lookup_fmap in Hi.
    destruct (diff !! i) as [d|] eqn:Ed; [|discriminate].
    injection Hi as <-.
    apply zip_sub_lookup in Ed as (u & w & Hu & Hw & ->).
    rewrite lookup_drop in Hu.
    apply lookup_take_Some in Hw as [Hw _].
    apply cumsum_insert_lookup in Hu, Hw.
    rewrite Nat.add_comm, <- take_take_drop, sum_app in Hu.
    rewrite Hu, Hw.
    apply Qmult_comp; [ring | reflexivity]. }
  exists r. split; [exact Hr|]. split; [exact Hlr|]. split; [|exact Hv].
  apply Forall2_same_length_lookup_2.
  - rewrite Hlr. unfold Svm.naive_sliding_mean.
    now rewrite length_map, length_seq.
  - intros i v m Hi Hm. unfold Svm.naive_sliding_mean in Hm.
    rewrite list_lookup_fmap in Hm.
    destruct (seq 0 _ !! i) as [j|] eqn:Ej; [|discriminate].
    apply lookup_seq in Ej as [-> _]. injection Hm as <-.
    apply Hv, Hi.
Qed.

Lemma running_mean_sliding_mean_witness :
  exists r : list Q,
    Svm.running_mean [1; 2; 3; 4] 2 = Ok r /\
    List.length r = 3%nat /\
    Forall2 Qeq r (Svm.naive_sliding_mean [1; 2; 3; 4] 2) /\
    (forall (i : nat) (v : Q),
        r !! i = Some v ->
        v == Svm.sum (firstn 2 (skipn i [1; 2; 3; 4])) / inject_Z 2).
Proof.
  apply (running_mean_sliding_mean [1; 2; 3; 4] 2). simpl. lia.
Defined.

End RunningMean.

(* ===================================================================== *)
(** * The seizure scan *)
(* ===================================================================== *)

Section SeizureScan.

Import ExploreData.

Variables (szr : list bool) (c : Z) (k0 : Z).

Lemma label_Ok (i : nat) (b : bool) : label szr i = Ok b -> szr !! i = Some b.
Proof. unfold label. destruct (szr !! i); [now intros [= ->] | discriminate]. Qed.

Lemma scan_step_inv (i : nat) (st st' : state) :
  (1 <= i)%nat -> scan_inv szr c k0 i st -> scan_step szr c i st = Ok st' ->
  scan_inv szr c k0 (S i) st'.
Proof.
  intros Hi (Hk & Habove & Hdone & Hpend) H.
  unfold scan_step in H.
  inv_bind H. rename x into cur, Hx into Hcur.
  inv_bind H. rename x into prev, Hx into Hprev.
  apply label_Ok in Hcur, Hprev.
  replace (S i - 1)%nat with i by lia.
  destruct cur, prev; simpl in H.
  - (* the seizure goes on *)
    injection H as <-. split; [assumption|]. split; [assumption|].
    split; [assumption|].
    unfold pending in *. replace (S i - 1)%nat with i by lia.
    destruct (seizures st !! k st) as [s|].
    + destruct Hpend as (He & a & Ha & Hs & Hf & Hrun).
      split; [assumption|]. exists a. repeat split; try assumption; try lia.
      intros j Hj. destruct (Nat.eq_dec j i) as [->|]; [assumption|].
      apply Hrun. lia.
    + intros _ j Hj. destruct (Nat.eq_dec j i) as [->|]; [assumption|].
      apply (Hpend Hprev). lia.
  - (* a seizure starts *)
    injection H as <-. unfold scan_inv. simpl.
    split; [assumption|]. split; [|split].
    + intros key Hkey. rewrite lookup_insert_ne by lia. now apply Habove.
    + intros key s Hkey. rewrite lookup_insert_ne by lia. now apply Hdone.
    + rewrite lookup_insert_eq. unfold pending. simpl.
      replace (S i - 1)%nat with i by lia.
      split; [reflexivity|]. exists i. repeat split; try lia; try assumption.
      intros j Hj. now replace j with i by lia.
  - (* a seizure ends *)
    destruct (seizures st !! k st) as [s|] eqn:Es; [|discriminate].
    injection H as <-. unfold scan_inv. simpl.
    destruct Hpend as (He & a & Ha & Hs & Hf & Hrun).
    split; [lia|]. split; [|split].
    + intros key Hkey. rewrite lookup_insert_ne by lia. apply Habove. lia.
    + intros key s' Hkey Hs'.
      destruct (Z.eq_dec key (k st)) as [->|Hne].
      * rewrite lookup_insert_eq in Hs'. injection Hs' as <-.
        exists a, (i - 1)%nat. unfold records. simpl.
        replace (i - 1 + 1)%nat with i by lia.
        repeat split; try assumption; try lia.
        -- f_equal. lia.
        -- f_equal. lia.
      * rewrite lookup_insert_ne in Hs' by congruence.
        apply (Hdone key s'); [lia | assumption].
    + rewrite lookup_insert_ne by lia. rewrite Habove by lia.
      unfold pending. replace (S i - 1)%nat with i by lia.
      intros Ht. congruence.
  - (* no seizure *)
    injection H as <-. split; [assumption|]. split; [assumption|].
    split; [assumption|].
    unfold pending in *. replace (S i - 1)%nat with i by lia.
    destruct (seizures st !! k st) as [s|].
    + destruct Hpend as (_ & a & Ha & _ & _ & Hrun).
      specialize (Hrun (i - 1)%nat ltac:(lia)). congruence.
    + intros Ht. congruence.
Qed.

Lemma scan_from_inv (count i : nat) (st st' : state) :
  (1 <= i)%nat -> scan_inv szr c k0 i st -> scan_from szr c i count st = Ok st' ->
  scan_inv szr c k0 (i + count) st'.
Proof.
  revert i st. induction count as [|count IH]; intros i st Hi Hinv H; simpl in H.
  - injection H as <-. now rewrite Nat.add_0_r.
  - inv_bind H. replace (i + S count)%nat with (S i + count)%nat by lia.
    apply (IH (S i) x); [lia | | assumption].
    eapply scan_step_inv; eauto.
Qed.


End SeizureScan.




(** The dictionary and the counter live on from one clip to the next.  When a
    clip ends during a seizure and the next one starts with [True] labels, the
    entry is completed with a start index of the first clip and an end index
    of the second: the scan of a clip has the property above when it is
    entered with no seizure pending, as the first clip is. *)
Example seizure_across_clips :
  ExploreData.explore [ExploreData.mk_clip 2 [false; true];
                       ExploreData.mk_clip 2 [true; false]]
  = Ok (ExploreData.mk_state
          {[ 1 := ExploreData.mk_seizure 0 (Some 0) (Some 0) (Some 2) ]} 2).
Proof. reflexivity. Qed.

(** A clip whose first label is [True] has no start to record: the end of
    that seizure finds no entry and the script stops with [KeyError]. *)
Example seizure_from_first_label :
  ExploreData.explore [ExploreData.mk_clip 3 [true; true; false]] = Raise KeyError.
Proof. reflexivity. Qed.

(* ===================================================================== *)
(** * Further properties of [generate_indices] *)
(* ===================================================================== *)

(** ** Data too short, just long enough, and in between *)

(** X1.  With a stride of at least one and a non-negative
    [target_steps_ahead], data shorter than [start_index + length] is
    refused: [generate_indices] raises [ValueError], with or without
    subsampling and whatever the sampling rate. *)
Theorem generate_indices_short_data (draw : list nat) (targets0 : list Q)
    (rest : list (list Q)) (length tsa sampling_rate stride start_index : Z)
    (subsample : bool) (thr f : Q) :
  1 <= stride -> 0 <= tsa ->
  Z.of_nat (List.length targets0) < start_index + length ->
  Utils.generate_indices draw (targets0 :: rest) length tsa sampling_rate stride
    start_index subsample thr f = Raise ValueError.
Proof.
  intros Hs Ht Hshort. unfold Utils.generate_indices, Utils.window_indices.
  destruct (stride =? 0) eqn:E; [apply Z.eqb_eq in E; lia|].
  set (L := Z.of_nat (List.length targets0)) in *.
  pose proof (Z.mul_div_le (L - (start_index + length) - tsa) stride ltac:(lia)).
  destruct (_ <? start_index + length) eqn:E1; [reflexivity|].
  apply Z.ltb_ge in E1. lia.
Qed.

Lemma generate_indices_short_data_witness :
  Utils.generate_indices [] [map inject_Z [1; 2; 3]] 4 2 1 1 0 true (1 # 2) 1
  = Raise ValueError.
Proof.
  apply (generate_indices_short_data [] (map inject_Z [1; 2; 3]) [] 4 2 1 1 0 true
           (1 # 2) 1); simpl; lia.
Defined.

(** X2.  With a stride [S >= 1], a non-zero sampling rate and data long
    enough for one window and its target
    ([start_index + length + target_steps_ahead <= L]), the call without
    subsampling returns exactly
    [floor((L - start_index - length - target_steps_ahead) / S) + 1] windows
    and as many target indices, at least one. *)
Theorem generate_indices_count_general (draw : list nat) (targets0 : list Q)
    (rest : list (list Q)) (length tsa sampling_rate stride start_index : Z)
    (thr f : Q) :
  let L := Z.of_nat (List.length targets0) in
  1 <= stride -> 0 <= tsa -> sampling_rate <> 0 ->
  start_index + length + tsa <= L ->
  exists ins tg,
    Utils.generate_indices draw (targets0 :: rest) length tsa sampling_rate stride
      start_index false thr f = Ok (ins, tg) /\
    Z.of_nat (List.length ins) = (L - start_index - length - tsa) / stride + 1 /\
    Z.of_nat (List.length tg) = (L - start_index - length - tsa) / stride + 1 /\
    (1 <= List.length tg)%nat.
Proof.
  intros L Hs Ht Hr Hlong.
  assert (0 <= (L - (start_index + length) - tsa) / stride) as Hq
    by (apply Z.div_pos; lia).
  destruct (window_indices_ok L length tsa sampling_rate stride start_index)
    as (ins & tg & Hwin); [lia | assumption | nia |].
  exists ins, tg. unfold Utils.generate_indices. fold L. rewrite Hwin. simpl.
  split; [reflexivity|].
  rewrite (window_indices_length _ _ _ _ _ _ _ _ Hwin).
  rewrite (window_indices_count _ _ _ _ _ _ _ _ Hwin Hs).
  replace (L - start_index - length - tsa)
    with (L - (start_index + length) - tsa) by lia.
  lia.
Qed.

Lemma generate_indices_count_general_witness :
  exists ins tg,
    Utils.generate_indices [] [map inject_Z [1; 2; 3; 4; 5; 6; 7; 8; 9; 10]]
      3 2 1 2 1 false (1 # 2) 1 = Ok (ins, tg) /\
    Z.of_nat (List.length ins) = (10 - 1 - 3 - 2) / 2 + 1 /\
    Z.of_nat (List.length tg) = (10 - 1 - 3 - 2) / 2 + 1 /\
    (1 <= List.length tg)%nat.
Proof.
  apply (generate_indices_count_general []
           (map inject_Z [1; 2; 3; 4; 5; 6; 7; 8; 9; 10]) [] 3 2 1 2 1 (1 # 2) 1);
    simpl; lia.
Defined.

(** X3.  With a stride of one, data long enough for a window but not for its
    target ([start_index + length <= L < start_index + length +
    target_steps_ahead]) raises nothing: the call returns two empty
    arrays. *)
Theorem generate_indices_no_room_for_target (draw : list nat) (targets0 : list Q)
    (rest : list (list Q)) (length tsa sampling_rate start_index : Z)
    (thr f : Q) :
  let L := Z.of_nat (List.length targets0) in
  start_index + length <= L -> L < start_index + length + tsa ->
  Utils.generate_indices draw (targets0 :: rest) length tsa sampling_rate 1
    start_index false thr f = Ok ([], []).
Proof.
  intros L Hlo Hhi. unfold Utils.generate_indices, Utils.window_indices.
  fold L. simpl (1 =? 0). cbv iota.
  rewrite Z.div_1_r, Z.mul_1_r.
  destruct (_ <? start_index + length) eqn:E; [apply Z.ltb_lt in E; lia|].
  unfold Np.arange. simpl (1 =? 0). cbv iota.
  unfold Np.arange_elems, Np.arange_len. rewrite !Z.div_1_r.
  replace (Z.to_nat (- (start_index + length -
             (start_index + length + (L - (start_index + length) - tsa) + tsa
              - tsa + 1)))) with 0%nat by lia.
  replace (Z.to_nat (- (start_index + length + tsa - 1 -
             (start_index + length + (L - (start_index + length) - tsa) + tsa))))
    with 0%nat by lia.
  reflexivity.
Qed.

Lemma generate_indices_no_room_for_target_witness :
  Utils.generate_indices [] [map inject_Z [1; 2; 3; 4; 5]] 4 2 1 1 0 false
    (1 # 2) 1 = Ok ([], []).
Proof.
  apply (generate_indices_no_room_for_target [] (map inject_Z [1; 2; 3; 4; 5]) []
           4 2 1 0 (1 # 2) 1); simpl; lia.
Defined.

(** ** Subsampling only removes windows *)

Lemma picked_sublist_from {A : Type} (keep : list nat) :
  forall (a : list A) (off : nat) (r : list A),
    StronglySorted lt keep ->
    Forall (fun p => (off <= p)%nat) keep ->
    Forall2 (fun p x => a !! (p - off)%nat = Some x) keep r ->
    r `sublist_of` a.
Proof.
  induction keep as [|p keep IH]; intros a off r Hs Hoff HF.
  - apply Forall2_nil_inv_l in HF as ->. apply sublist_nil_l.
  - apply Forall2_cons_inv_l in HF as (x & r' & Hp & HF & ->).
    apply StronglySorted_inv in Hs as [Hs Hall].
    apply Forall_cons in Hoff as [Hp_off _].
    rewrite <- (take_drop_middle a (p - off) x Hp).
    apply sublist_inserts_l, sublist_skip.
    apply (IH _ (S p)); [assumption | |].
    + eapply Forall_impl; [exact Hall|]. simpl. intros q Hq. lia.
    + apply Forall2_same_length_lookup_2; [eapply Forall2_length, HF|].
      intros i q y Hq Hy.
      pose proof (Forall2_lookup_lr _ _ _ _ _ _ HF Hq Hy) as Hqy. simpl in Hqy.
      rewrite Forall_forall in Hall.
      pose proof (Hall q (list_elem_of_lookup_2 _ _ _ Hq)) as Hlt.
      rewrite lookup_drop. rewrite <- Hqy. f_equal. lia.
Qed.

Lemma picked_sublist {A : Type} (a : list A) (keep : list nat) (r : list A) :
  StronglySorted lt keep -> Np.select a keep = Ok r -> r `sublist_of` a.
Proof.
  intros Hs H. apply select_Forall2 in H.
  apply (picked_sublist_from keep a 0%nat r Hs).
  - apply Forall_forall. intros; lia.
  - eapply Forall2_impl; [exact H|]. simpl. intros p x Hp.
    now rewrite Nat.sub_0_r.
Qed.

(** X4.  Subsampling only removes windows and keeps the others in temporal
    order: the arrays returned with [subsample = True] are sub-sequences of
    those returned with [subsample = False] for the same arguments (the draw
    of [np.random.choice] holding no position twice). *)
Theorem generate_indices_subsample_sublist (draw : list nat)
    (targets : list (list Q)) (length tsa sampling_rate stride start_index : Z)
    (thr f : Q) (ins0 ins : list (list Z)) (tg0 tg : list Z) :
  NoDup draw ->
  Utils.generate_indices draw targets length tsa sampling_rate stride start_index
    false thr f = Ok (ins0, tg0) ->
  Utils.generate_indices draw targets length tsa sampling_rate stride start_index
    true thr f = Ok (ins, tg) ->
  ins `sublist_of` ins0 /\ tg `sublist_of` tg0.
Proof.
  intros Hd H0 H1.
  apply generate_indices_inv in H0 as (t0 & rest & ins0' & tg0' & -> & Hwin & <- & <-).
  apply generate_indices_inv in H1 as (t1 & rest1 & ins1 & tg1 & Heq & Hwin1 & Hsub).
  injection Heq as <- <-. rewrite Hwin in Hwin1. injection Hwin1 as <- <-.
  apply subsample_indices_inv in Hsub as (vals & nk & _ & Hnk & Hins & Htg).
  pose proof (kept_sorted _ _ _ _ _ Hnk Hd) as Hs.
  split; eapply picked_sublist; eauto.
Qed.

Lemma generate_indices_subsample_sublist_witness :
  [[0; 1]; [2; 3]; [3; 4]] `sublist_of` [[0; 1]; [1; 2]; [2; 3]; [3; 4]] /\
  [2; 4; 5] `sublist_of` [2; 3; 4; 5].
Proof.
  apply (generate_indices_subsample_sublist [2; 0; 1]%nat
           [map inject_Z [0; 0; 0; 0; 1; 0]] 2 1 1 1 0 (1 # 2) 2);
    [|reflexivity|reflexivity].
  repeat constructor; rewrite ?elem_of_cons, ?elem_of_nil; intuition lia.
Defined.

(** ** Subsampling without positive windows, and with room for every
       negative one *)

Lemma where_from_none (i : nat) (mask : list bool) :
  Forall (fun b => b = false) mask -> Np.where_from i mask = [].
Proof.
  intros H. revert i. induction H as [|b mask -> _ IH]; intros i; simpl; auto.
Qed.

(** X5.  When no window has a target value that reaches the threshold,
    [subsample = True] leaves nothing: whatever the subsampling factor and
    the draw, the call returns two empty arrays. *)
Theorem generate_indices_subsample_no_positive (draw : list nat)
    (targets : list (list Q)) (targets0 : list Q)
    (length tsa sampling_rate stride start_index : Z) (thr f : Q)
    (ins0 : list (list Z)) (tg0 : list Z) (vals : list Q) :
  Utils.generate_indices draw targets length tsa sampling_rate stride start_index
    false thr f = Ok (ins0, tg0) ->
  head targets = Some targets0 ->
  Np.take targets0 tg0 = Ok vals ->
  Forall (fun v => Qle_bool thr v = false) vals ->
  Utils.generate_indices draw targets length tsa sampling_rate stride start_index
    true thr f = Ok ([], []).
Proof.
  intros H Hhd Hvals Hneg.
  apply generate_indices_inv in H as (t0 & rest & ins0' & tg0' & -> & Hwin & <- & <-).
  injection Hhd as ->.
  unfold Utils.generate_indices. rewrite Hwin. simpl.
  unfold Utils.subsample_indices. rewrite Hvals. simpl.
  assert (Np.where_ (map (fun v => Qle_bool thr v) vals) = []) as ->.
  { apply where_from_none, Forall_fmap.
    eapply Forall_impl; [exact Hneg|]. auto. }
  assert (py_int (inject_Z (Z.of_nat (List.length (@nil nat))) * f)%Q = 0) as ->.
  { unfold py_int. simpl. reflexivity. }
  rewrite Z.min_l by lia.
  unfold Np.random_choice. change (0 <? 0) with false. cbv iota.
  destruct (Z.of_nat _ <? 0) eqn:E; [apply Z.ltb_lt in E; lia|].
  reflexivity.
Qed.

Lemma generate_indices_subsample_no_positive_witness :
  Utils.generate_indices [1; 0]%nat [map inject_Z [0; 0; 0; 0]] 2 1 1 1 0 true
    (1 # 2) 3 = Ok ([], []).
Proof.
  apply (generate_indices_subsample_no_positive [1; 0]%nat
           [map inject_Z [0; 0; 0; 0]] (map inject_Z [0; 0; 0; 0]) 2 1 1 1 0
           (1 # 2) 3 [[0; 1]; [1; 2]] [2; 3] (map inject_Z [0; 0]));
    try reflexivity.
  repeat constructor.
Defined.

Lemma select_all {A : Type} (a : list A) :
  Np.select a (seq 0 (List.length a)) = Ok a.
Proof.
  apply select_Forall2. apply Forall2_same_length_lookup_2.
  - apply length_seq.
  - intros i p x Hp Hx. apply lookup_seq in Hp as [-> _]. exact Hx.
Qed.

Lemma positive_negative_all (thr : Q) (vals : list Q) :
  Np.where_ (map (fun v => Qle_bool thr v) vals)
  ++ Np.where_ (map (fun v => negb (Qle_bool thr v)) vals)
  ≡ₚ seq 0 (List.length vals).
Proof.
  apply NoDup_Permutation.
  - apply NoDup_app. split; [apply where_NoDup|]. split; [|apply where_NoDup].
    intros p Hp Hn. apply where_positive_elem, positive_not_negative in Hp.
    apply where_negative_elem in Hn. congruence.
  - apply NoDup_seq.
  - intros p. rewrite elem_of_app, where_positive_elem, where_negative_elem,
      elem_of_seq.
    unfold Subsampling.is_positive, Subsampling.is_negative. split.
    + intros [H | H]; destruct (vals !! p) eqn:E; try discriminate;
        apply lookup_lt_Some in E; lia.
    + intros [_ H]. apply lookup_lt_is_Some_2 in H as [v ->].
      destruct (Qle_bool thr v); auto.
Qed.

Lemma picked_all_Permutation (a : list nat) (ps r : list nat) :
  NoDup a -> ps ≡ₚ seq 0 (List.length a) ->
  Forall2 (fun p x => a !! p = Some x) ps r -> r ≡ₚ a.
Proof.
  intros Ha Hps HF. apply NoDup_Permutation.
  - eapply picked_NoDup; [exact HF | | exact Ha]. rewrite Hps. apply NoDup_seq.
  - exact Ha.
  - intros x. split; [intros Hx; eapply picked_elem; eauto|].
    intros Hx. apply list_elem_of_lookup in Hx as [p Hp].
    assert (p ∈ ps) as Hin.
    { rewrite Hps. apply elem_of_seq. apply lookup_lt_Some in Hp. lia. }
    apply list_elem_of_lookup in Hin as [i Hi].
    destruct (Forall2_lookup_l _ _ _ _ _ HF Hi) as (y & Hy & Hpy).
    rewrite Hp in Hpy. injection Hpy as <-.
    eapply list_elem_of_lookup_2, Hy.
Qed.

Lemma seq_sorted (i n : nat) : StronglySorted lt (seq i n).
Proof.
  revert i. induction n as [|n IH]; intros i; simpl; constructor; [apply IH|].
  apply Forall_forall. intros p Hp. apply elem_of_seq in Hp. lia.
Qed.

(** X6.  When [int(n_positive * subsampling_factor)] is at least the number
    of negative windows, subsampling removes nothing: the call with
    [subsample = True] returns the same two arrays as the call with
    [subsample = False], whichever permutation [np.random.choice] draws. *)
Theorem generate_indices_subsample_keeps_all (draw : list nat)
    (targets : list (list Q)) (targets0 : list Q)
    (length tsa sampling_rate stride start_index : Z) (thr f : Q)
    (ins0 : list (list Z)) (tg0 : list Z) (vals : list Q) :
  Utils.generate_indices draw targets length tsa sampling_rate stride start_index
    false thr f = Ok (ins0, tg0) ->
  head targets = Some targets0 ->
  Np.take targets0 tg0 = Ok vals ->
  draw ≡ₚ seq 0 (Subsampling.n_negative thr vals) ->
  Z.of_nat (Subsampling.n_negative thr vals)
  <= py_int (inject_Z (Z.of_nat (Subsampling.n_positive thr vals)) * f)%Q ->
  Utils.generate_indices draw targets length tsa sampling_rate stride start_index
    true thr f = Ok (ins0, tg0).
Proof.
  intros H Hhd Hvals Hdraw Hroom.
  apply generate_indices_inv in H as (t0 & rest & ins0' & tg0' & -> & Hwin & <- & <-).
  injection Hhd as ->.
  pose proof (window_indices_length _ _ _ _ _ _ _ _ Hwin) as Hlen.
  pose proof (rmap_length _ _ _ Hvals) as Hlv.
  set (positive := Np.where_ (map (fun v => Qle_bool thr v) vals)).
  set (negative := Np.where_ (map (fun v => negb (Qle_bool thr v)) vals)).
  assert (List.length positive = Subsampling.n_positive thr vals) as Hlp
    by apply where_positive_length.
  assert (List.length negative = Subsampling.n_negative thr vals) as Hln
    by apply where_negative_length.
  set (n_neg := Subsampling.n_negative thr vals) in *.
  assert (List.length draw = n_neg) as Hld.
  { rewrite (Permutation_length Hdraw). apply length_seq. }
  assert (exists nk, Np.random_choice draw negative (Z.of_nat n_neg) = Ok nk)
    as [nk Hnk].
  { unfold Np.random_choice.
    destruct (Z.of_nat n_neg <? 0) eqn:E1; [apply Z.ltb_lt in E1; lia|].
    destruct (_ <? Z.of_nat n_neg) eqn:E2; [apply Z.ltb_lt in E2; lia|].
    apply select_ok. apply Forall_forall. intros p Hp.
    apply elem_of_take in Hp as (i & Hi & _).
    apply list_elem_of_lookup_2 in Hi. rewrite Hdraw in Hi.
    apply elem_of_seq in Hi. lia. }
  destruct (random_choice_inv _ _ _ _ Hnk) as [_ HF].
  rewrite Nat2Z.id, take_ge in HF by lia.
  assert (nk ≡ₚ negative) as Hperm.
  { eapply picked_all_Permutation; [apply where_NoDup | | exact HF].
    now rewrite Hln. }
  assert (Np.sort (positive ++ nk) = seq 0 (List.length vals)) as Hkeep.
  { apply (StronglySorted_unique_strong lt).
    - intros; lia.
    - eapply kept_sorted; [exact Hnk|]. rewrite Hdraw. apply NoDup_seq.
    - apply seq_sorted.
    - unfold Np.sort. rewrite merge_sort_Permutation, Hperm.
      apply positive_negative_all. }
  unfold Utils.generate_indices. rewrite Hwin. simpl.
  unfold Utils.subsample_indices. rewrite Hvals. simpl.
  fold positive negative. rewrite Hlp, Hln. fold n_neg.
  rewrite Z.min_r by lia. rewrite Hnk. simpl. rewrite Hkeep.
  assert (Np.select ins0 (seq 0 (List.length vals)) = Ok ins0) as ->
    by (rewrite Hlv, <- Hlen; apply select_all).
  assert (Np.select tg0 (seq 0 (List.length vals)) = Ok tg0) as ->
    by (rewrite Hlv; apply select_all).
  reflexivity.
Qed.

Lemma generate_indices_subsample_keeps_all_witness :
  Utils.generate_indices [1; 0]%nat [map inject_Z [0; 0; 0; 1; 0]] 2 1 1 1 0 true
    (1 # 2) 2 = Ok ([[0; 1]; [1; 2]; [2; 3]], [2; 3; 4]).
Proof.
  apply (generate_indices_subsample_keeps_all [1; 0]%nat
           [map inject_Z [0; 0; 0; 1; 0]] (map inject_Z [0; 0; 0; 1; 0])
           2 1 1 1 0 (1 # 2) 2 [[0; 1]; [1; 2]; [2; 3]] [2; 3; 4]
           (map inject_Z [0; 1; 0])); try reflexivity.
  apply perm_swap.
Defined.

(* ===================================================================== *)
(** * Further properties of [generate_sequences] *)
(* ===================================================================== *)

(** ** Number of batches over the epochs *)

Lemma batch_body_one {A : Type} (inputs : list (list A)) (targets : list (list Q))
    (bs : Utils.batch) (ins : list (list Z)) (tg : list Z) (b : Z)
    (ys : list (Utils.yielded A)) (u : unit) :
  Utils.gbind (Utils.glift (Utils.batch_slice ins b bs)) (fun iis =>
  Utils.gbind (Utils.glift (Utils.batch_slice tg b bs)) (fun tis =>
  Utils.yield_batch inputs targets iis tis)) = (ys, Ok u) ->
  List.length ys = 1%nat.
Proof.
  intros H.
  apply gbind_Ok in H as (y1 & iis & y2 & H1 & H & ->).
  apply glift_Ok in H1 as [-> _].
  apply gbind_Ok in H as (y3 & tis & y4 & H3 & H & ->).
  apply glift_Ok in H3 as [-> _].
  simpl. eapply yield_batch_one, H.
Qed.

Lemma epoch_loop_count {A : Type} (inputs : list (list A)) (targets : list (list Q))
    (shuffle : bool) (perms : nat -> list nat) (bs : Utils.batch)
    (n_batches_full n_residual_samples : Z) (es : list nat) :
  forall (ins : list (list Z)) (tg : list Z) (ys : list (Utils.yielded A)) (u : unit),
    Utils.epoch_loop inputs targets shuffle perms bs n_batches_full
      n_residual_samples es ins tg = (ys, Ok u) ->
    List.length ys
    = (List.length es
       * (Z.to_nat n_batches_full
          + (if (0 <? n_residual_samples)%Z then 1 else 0)))%nat.
Proof.
  induction es as [|e es IH]; intros ins tg ys u H; simpl in H.
  - unfold Utils.gret in H. now injection H as <-.
  - apply gbind_Ok in H as (y0 & [ins' tg'] & y1 & H0 & H & ->).
    assert (y0 = []) as ->.
    { destruct shuffle.
      - now apply glift_Ok in H0 as [-> _].
      - unfold Utils.gret in H0. now injection H0 as <-. }
    apply gbind_Ok in H as (y2 & [] & y3 & Hfor & H & ->).
    apply gbind_Ok in H as (y4 & [] & y5 & Hres & H & ->).
    apply gfor_one in Hfor; [|intros b ys' u'; apply batch_body_one].
    apply IH in H.
    assert (List.length y4 = if 0 <? n_residual_samples then 1%nat else 0%nat)
      as Hy4.
    { destruct (0 <? n_residual_samples).
      - eapply yield_batch_one, Hres.
      - unfold Utils.gret in Hres. now injection Hres as <-. }
    simpl. rewrite !length_app, Hfor, Hy4, H.
    unfold Utils.range. rewrite length_map, length_seq. lia.
Qed.

(** X7.  With a batch size of at least one, a run of [generate_sequences]
    that ends normally first yields the count [ceil(n / batch_size)], [n]
    being the number of windows, and then, in every epoch, that many batches
    plus one more when [n % batch_size > 0], with or without shuffling. *)
Theorem generate_sequences_batches_per_epoch {A : Type} (draw : list nat)
    (perms : nat -> list nat) (inputs : list (list A)) (targets : list (list Q))
    (length tsa sampling_rate stride start_index : Z) (shuffle : bool)
    (epochs batch_size : Z) (subsample : bool) (thr f : Q)
    (ins : list (list Z)) (tg : list Z) (ys : list (Utils.yielded A)) :
  Utils.generate_indices draw targets length tsa sampling_rate stride start_index
    subsample thr f = Ok (ins, tg) ->
  1 <= batch_size ->
  Utils.generate_sequences draw perms inputs targets length tsa sampling_rate
    stride start_index shuffle epochs batch_size subsample thr f = (ys, Ok tt) ->
  let n := Z.of_nat (List.length tg) in
  let extra := if 0 <? n mod batch_size then 1 else 0 in
  exists batches,
    ys = Utils.YieldCount (n / batch_size + extra) :: batches /\
    Z.of_nat (List.length batches)
    = Z.max 0 epochs * (n / batch_size + extra + extra).
Proof.
  intros Hidx Hbs H n extra. unfold Utils.generate_sequences in H.
  destruct (stride <? 1); [discriminate|].
  rewrite Hidx in H. simpl in H.
  unfold Utils.batch_of in H.
  destruct (batch_size =? -1) eqn:E; [apply Z.eqb_eq in E; lia|].
  unfold Utils.floordiv_batch, Utils.mod_batch in H.
  destruct (batch_size =? 0) eqn:E0; [apply Z.eqb_eq in E0; lia|].
  simpl in H. fold n in H.
  destruct (Utils.epoch_loop _ _ _ _ _ _ _ _ _ _) as [batches [[]|e]] eqn:Eloop in H;
    [|discriminate].
  injection H as <-. exists batches.
  apply epoch_loop_count in Eloop. rewrite length_seq in Eloop.
  assert (0 <= n / batch_size) by (apply Z.div_pos; unfold n; lia).
  unfold extra.
  destruct (0 <? n mod batch_size); (split; [do 2 f_equal; lia|]); nia.
Qed.

Lemma generate_sequences_batches_per_epoch_witness :
  exists batches,
    [Utils.YieldCount 2;
     Utils.YieldBatch [[[100; 101]; [101; 102]; [102; 103]]]
                      [map inject_Z [11; 12; 13]];
     Utils.YieldBatch [[[103; 104]]] [map inject_Z [14]];
     Utils.YieldBatch [[[103; 104]]] [map inject_Z [14]]]
    = Utils.YieldCount (4 / 3 + 1) :: batches /\
    Z.of_nat (List.length batches) = Z.max 0 1 * (4 / 3 + 1 + 1).
Proof.
  apply (generate_sequences_batches_per_epoch [] (fun _ => [])
           [[100; 101; 102; 103; 104]] [map inject_Z [10; 11; 12; 13; 14]]
           2 0 1 1 0 false 1 3 false (1 # 2) 1
           [[0; 1]; [1; 2]; [2; 3]; [3; 4]] [1; 2; 3; 4]);
    [reflexivity | lia | reflexivity].
Defined.

(** ** What the batches hold *)

Lemma generate_indices_same_length (draw : list nat) (targets : list (list Q))
    (length tsa sampling_rate stride start_index : Z) (subsample : bool)
    (thr f : Q) (ins : list (list Z)) (tg : list Z) :
  Utils.generate_indices draw targets length tsa sampling_rate stride start_index
    subsample thr f = Ok (ins, tg) ->
  List.length ins = List.length tg.
Proof.
  intros H.
  apply generate_indices_inv in H as (t0 & rest & ins0 & tg0 & -> & Hwin & Hsub).
  destruct subsample.
  - apply subsample_indices_inv in Hsub as (vals & nk & _ & _ & Hins & Htg).
    apply select_Forall2 in Hins, Htg.
    rewrite <- (Forall2_length _ _ _ Hins). apply (Forall2_length _ _ _ Htg).
  - destruct Hsub as [-> ->]. eapply window_indices_length, Hwin.
Qed.

Lemma slice_take_drop {B : Type} (l : list B) (k : nat) (bs : Z) :
  1 <= bs ->
  Np.slice l (Z.of_nat k * bs) (Z.of_nat k * bs + bs)
  = take (Z.to_nat bs) (drop (k * Z.to_nat bs) l).
Proof.
  intros Hbs. unfold Np.slice, Np.norm_bound.
  destruct (Z.of_nat k * bs <? 0) eqn:E1; [apply Z.ltb_lt in E1; nia|].
  destruct (Z.of_nat k * bs + bs <? 0) eqn:E2; [apply Z.ltb_lt in E2; nia|].
  assert (Z.to_nat (Z.of_nat k * bs) = (k * Z.to_nat bs)%nat) as ->.
  { rewrite Z2Nat.inj_mul by lia. now rewrite Nat2Z.id. }
  f_equal. rewrite Z2Nat.inj_add by nia.
  rewrite Z2Nat.inj_mul by lia. rewrite Nat2Z.id. lia.
Qed.

Lemma chunks_tile {B : Type} (size m : nat) :
  (1 <= size)%nat ->
  forall l : list B,
    (List.length l <= m * size)%nat ->
    concat (map (fun k => take size (drop (k * size) l)) (seq 0 m)) = l.
Proof.
  intros Hsize. induction m as [|m IH]; intros l Hl.
  - destruct l; [reflexivity | simpl in Hl; lia].
  - change (seq 0 (S m)) with (0%nat :: seq 1 m).
    rewrite <- fmap_S_seq. cbn [map concat].
    change (S <$> seq 0 m) with (map S (seq 0 m)). rewrite map_map.
    rewrite (map_ext _ (fun k => take size (drop (k * size) (drop size l)))).
    + rewrite IH by (rewrite length_drop; lia).
      rewrite Nat.mul_0_l, drop_0. apply take_drop.
    + intros k. rewrite drop_drop. reflexivity.
Qed.

Lemma slices_tile {B : Type} (l : list B) (bs c : Z) :
  1 <= bs -> Z.of_nat (List.length l) <= c * bs ->
  concat (map (fun b => Np.slice l (b * bs) (b * bs + bs)) (Utils.range c)) = l.
Proof.
  intros Hbs Hc. unfold Utils.range. rewrite map_map.
  rewrite (map_ext _ (fun k => take (Z.to_nat bs) (drop (k * Z.to_nat bs) l)))
    by (intros k; now apply slice_take_drop).
  apply chunks_tile; [lia | nia].
Qed.

Lemma gfor_Forall2 {A B : Type} (body : B -> Utils.gen A unit) (l : list B) :
  (forall b ys' u', body b = (ys', Ok u') -> List.length ys' = 1%nat) ->
  forall (ys : list (Utils.yielded A)) (u : unit),
    Utils.gfor l body = (ys, Ok u) ->
    Forall2 (fun b y => body b = ([y], Ok tt)) l ys.
Proof.
  intros Hbody. induction l as [|b l IH]; intros ys u H; simpl in H.
  - unfold Utils.gret in H. injection H as <-. constructor.
  - apply gbind_Ok in H as (ys1 & [] & ys2 & H1 & H2 & ->).
    pose proof (Hbody _ _ _ H1) as Hone.
    destruct ys1 as [|y [|? ?]]; try discriminate.
    constructor; [exact H1 | eapply IH, H2].
Qed.

Lemma range_succ (q : Z) : 0 <= q -> Utils.range (q + 1) = Utils.range q ++ [q].
Proof.
  intros Hq. unfold Utils.range.
  replace (Z.to_nat (q + 1)) with (S (Z.to_nat q)) by lia.
  rewrite seq_S, map_app. simpl. do 2 f_equal. lia.
Qed.

(** X8.  Without shuffling and for one epoch, with a batch size of at least
    one, a run that ends normally yields, after the count [c = ceil(n /
    batch_size)], [c] batches that tile the windows in temporal order: batch
    [b] gathers the windows and targets at positions [b * batch_size] to
    [b * batch_size + batch_size - 1], and these slices, put end to end, are
    the whole index arrays.  When [n % batch_size > 0] one more batch follows,
    equal to the last of them; otherwise nothing follows. *)
Theorem generate_sequences_batches_tile {A : Type} (draw : list nat)
    (perms : nat -> list nat) (inputs : list (list A)) (targets : list (list Q))
    (length tsa sampling_rate stride start_index batch_size : Z)
    (subsample : bool) (thr f : Q)
    (ins : list (list Z)) (tg : list Z) (ys : list (Utils.yielded A)) :
  Utils.generate_indices draw targets length tsa sampling_rate stride start_index
    subsample thr f = Ok (ins, tg) ->
  1 <= batch_size ->
  Utils.generate_sequences draw perms inputs targets length tsa sampling_rate
    stride start_index false 1 batch_size subsample thr f = (ys, Ok tt) ->
  let n := Z.of_nat (List.length tg) in
  let c := n / batch_size + (if 0 <? n mod batch_size then 1 else 0) in
  exists batches rest,
    ys = Utils.YieldCount c :: batches ++ rest /\
    Forall2 (fun b y =>
               Utils.yield_batch inputs targets
                 (Np.slice ins (b * batch_size) (b * batch_size + batch_size))
                 (Np.slice tg (b * batch_size) (b * batch_size + batch_size))
               = ([y], Ok tt))
            (Utils.range c) batches /\
    concat (map (fun b => Np.slice ins (b * batch_size) (b * batch_size + batch_size))
                (Utils.range c)) = ins /\
    concat (map (fun b => Np.slice tg (b * batch_size) (b * batch_size + batch_size))
                (Utils.range c)) = tg /\
    if 0 <? n mod batch_size
    then exists y, last batches = Some y /\ rest = [y]
    else rest = [].
Proof.
  intros Hidx Hbs H n c.
  pose proof (generate_indices_same_length _ _ _ _ _ _ _ _ _ _ _ _ Hidx) as Hlen.
  unfold Utils.generate_sequences in H.
  remember (seq 0 (Z.to_nat 1)) as es eqn:Hes in H.
  destruct (stride <? 1); [discriminate|].
  rewrite Hidx in H. simpl in H.
  unfold Utils.batch_of in H.
  destruct (batch_size =? -1) eqn:E; [apply Z.eqb_eq in E; lia|].
  unfold Utils.floordiv_batch, Utils.mod_batch in H.
  destruct (batch_size =? 0) eqn:E0; [apply Z.eqb_eq in E0; lia|].
  simpl in H. fold n in H.
  assert ((if 0 <? n mod batch_size then n / batch_size + 1 else n / batch_size)
          = c) as Hc.
  { unfold c. destruct (0 <? n mod batch_size); lia. }
  rewrite Hc in H.
  destruct (Utils.epoch_loop _ _ _ _ _ _ _ _ _ _) as [ys' [[]|e]] eqn:Eloop in H;
    [|discriminate].
  injection H as <-.
  change (seq 0 (Z.to_nat 1)) with [0%nat] in Hes. subst es.
  cbn [Utils.epoch_loop] in Eloop.
  apply gbind_Ok in Eloop as (y0 & [ins' tg'] & y1 & H0 & Eloop & ->).
  unfold Utils.gret in H0. injection H0 as <- <- <-.
  apply gbind_Ok in Eloop as (batches & [] & y3 & Hfor & Eloop & ->).
  apply gbind_Ok in Eloop as (rest & [] & y5 & Hres & Eloop & ->).
  unfold Utils.gret in Eloop. injection Eloop as <-.
  apply gfor_Forall2 in Hfor; [|intros b ys' u'; apply batch_body_one].
  assert (Forall2 (fun b y =>
             Utils.yield_batch inputs targets
               (Np.slice ins (b * batch_size) (b * batch_size + batch_size))
               (Np.slice tg (b * batch_size) (b * batch_size + batch_size))
             = ([y], Ok tt)) (Utils.range c) batches) as Hbatches.
  { eapply Forall2_impl; [exact Hfor|]. intros b y Hb. simpl in Hb.
    destruct (Utils.yield_batch inputs targets
                (Np.slice ins (b * batch_size) (b * batch_size + batch_size))
                (Np.slice tg (b * batch_size) (b * batch_size + batch_size)))
      as [ys' s] eqn:Ey.
    exact Hb. }
  pose proof (Z.div_mod n batch_size ltac:(lia)) as Hdm.
  pose proof (Z.mod_pos_bound n batch_size ltac:(lia)) as Hmod.
  assert (n <= c * batch_size) as Hcover.
  { unfold c. destruct (0 <? n mod batch_size) eqn:Er.
    - nia.
    - apply Z.ltb_ge in Er. nia. }
  exists batches, rest. simpl. rewrite app_nil_r.
  split; [reflexivity|]. split; [exact Hbatches|].
  split; [apply slices_tile; [lia | rewrite Hlen; exact Hcover]|].
  split; [apply slices_tile; [lia | exact Hcover]|].
  destruct (0 <? n mod batch_size) eqn:Er.
  - apply Z.ltb_lt in Er.
    assert (0 <= n / batch_size) as Hq by (apply Z.div_pos; unfold n; lia).
    unfold c in Hbatches. rewrite (range_succ _ Hq) in Hbatches.
    apply Forall2_app_inv_l in Hbatches as (b1 & b2 & _ & Hlast & ->).
    apply Forall2_cons_inv_l in Hlast as (y & b3 & Hy & Hnil & ->).
    apply Forall2_nil_inv_l in Hnil as ->.
    exists y. split; [apply last_snoc|].
    assert (forall (B : Type) (l : list B),
               Z.of_nat (List.length l) = n ->
               Np.slice l (n / batch_size * batch_size)
                          (n / batch_size * batch_size + batch_size)
               = Np.slice_from l (n - n mod batch_size)) as Hsl.
    { intros B l Hl.
      rewrite <- (Z2Nat.id (n / batch_size)) by lia.
      rewrite slice_take_drop by lia.
      unfold Np.slice_from, Np.norm_bound.
      destruct (n - n mod batch_size <? 0) eqn:E1; [apply Z.ltb_lt in E1; lia|].
      assert ((Z.to_nat (n / batch_size) * Z.to_nat batch_size)%nat
              = Z.to_nat (n - n mod batch_size)) as -> by nia.
      apply take_ge. rewrite length_drop. lia. }
    rewrite (Hsl _ ins), (Hsl _ tg) in Hy by (unfold n; lia).
    fold n in Hres. rewrite Hy in Hres. now injection Hres as <-.
  - unfold Utils.gret in Hres. now injection Hres as <-.
Qed.

Lemma generate_sequences_batches_tile_witness :
  exists batches rest : list (Utils.yielded Z),
    [Utils.YieldCount 2;
     Utils.YieldBatch [[[100; 101]; [101; 102]; [102; 103]]]
                      [map inject_Z [11; 12; 13]];
     Utils.YieldBatch [[[103; 104]]] [map inject_Z [14]];
     Utils.YieldBatch [[[103; 104]]] [map inject_Z [14]]]
    = Utils.YieldCount 2 :: batches ++ rest /\
    Forall2 (fun b y =>
               Utils.yield_batch [[100; 101; 102; 103; 104]]
                 [map inject_Z [10; 11; 12; 13; 14]]
                 (Np.slice [[0; 1]; [1; 2]; [2; 3]; [3; 4]] (b * 3) (b * 3 + 3))
                 (Np.slice [1; 2; 3; 4] (b * 3) (b * 3 + 3))
               = ([y], Ok tt))
            (Utils.range 2) batches /\
    concat (map (fun b => Np.slice [[0; 1]; [1; 2]; [2; 3]; [3; 4]] (b * 3) (b * 3 + 3))
                (Utils.range 2)) = [[0; 1]; [1; 2]; [2; 3]; [3; 4]] /\
    concat (map (fun b => Np.slice [1; 2; 3; 4] (b * 3) (b * 3 + 3))
                (Utils.range 2)) = [1; 2; 3; 4] /\
    exists y, last batches = Some y /\ rest = [y].
Proof.
  apply (generate_sequences_batches_tile [] (fun _ => [])
           [[100; 101; 102; 103; 104]] [map inject_Z [10; 11; 12; 13; 14]]
           2 0 1 1 0 3 false (1 # 2) 1
           [[0; 1]; [1; 2]; [2; 3]; [3; 4]] [1; 2; 3; 4]);
    [reflexivity | lia | reflexivity].
Defined.

(** ** No index error on aligned data *)

Lemma generate_indices_bounds (draw : list nat) (targets0 : list Q)
    (rest : list (list Q)) (length tsa sampling_rate stride start_index : Z)
    (subsample : bool) (thr f : Q) (ins : list (list Z)) (tg : list Z) :
  1 <= stride -> 0 <= start_index -> 0 <= tsa -> 1 <= length ->
  Utils.generate_indices draw (targets0 :: rest) length tsa sampling_rate stride
    start_index subsample thr f = Ok (ins, tg) ->
  let L := Z.of_nat (List.length targets0) in
  Forall (fun w => Forall (fun x => 0 <= x < L) w) ins /\
  Forall (fun t => 0 <= t < L) tg.
Proof.
  intros Hs Hsi Htsa Hlen H L.
  apply generate_indices_inv in H as (t0 & rest' & ins0 & tg0 & Heq & Hwin & Hsub).
  injection Heq as <- <-. fold L in Hwin.
  pose proof (window_indices_bounds _ _ _ _ _ _ _ _ Hwin Hs Hsi Htsa Hlen) as Hb.
  assert (Forall (fun w => Forall (fun x => 0 <= x < L) w) ins0 /\
          Forall (fun t => 0 <= t < L) tg0) as [Hi0 Ht0].
  { split; apply Forall_forall.
    - intros w Hw. apply list_elem_of_lookup in Hw as [p Hp].
      apply Forall_forall. intros x Hx.
      apply (proj2 (Hb p) w x Hp). now apply list_elem_of_In.
    - intros t Ht. apply list_elem_of_lookup in Ht as [p Hp].
      apply (proj1 (Hb p) t Hp). }
  destruct subsample.
  - apply subsample_indices_inv in Hsub as (vals & nk & _ & _ & Hins & Htg).
    apply select_Forall2 in Hins, Htg.
    rewrite Forall_forall in Hi0. rewrite Forall_forall in Ht0.
    split; apply Forall_forall; intros x Hx.
    + apply Hi0. eapply picked_elem; eauto.
    + apply Ht0. eapply picked_elem; eauto.
  - destruct Hsub as [-> ->]. auto.
Qed.

Lemma rmap_ok {A B : Type} (f : A -> result B) (l : list A) :
  Forall (fun a => exists b, f a = Ok b) l -> exists r, rmap f l = Ok r.
Proof.
  induction 1 as [|a l [b Hb] _ [r IH]]; simpl.
  - eauto.
  - rewrite Hb. simpl. rewrite IH. simpl. eauto.
Qed.

Lemma get_ok {A : Type} (a : list A) (i : Z) :
  0 <= i < Z.of_nat (List.length a) -> exists x, Np.get a i = Ok x.
Proof.
  intros Hi. unfold Np.get.
  destruct (i <? 0) eqn:E; [apply Z.ltb_lt in E; lia|].
  destruct ((0 <=? i) && (i <? Z.of_nat (List.length a))) eqn:E1.
  - destruct (lookup_lt_is_Some_2 a (Z.to_nat i) ltac:(lia)) as [x ->]. eauto.
  - apply andb_false_iff in E1 as [E1 | E1];
      [apply Z.leb_gt in E1 | apply Z.ltb_ge in E1]; lia.
Qed.

Lemma take_ok {A : Type} (a : list A) (idx : list Z) :
  Forall (fun i => 0 <= i < Z.of_nat (List.length a)) idx ->
  exists r, Np.take a idx = Ok r.
Proof.
  intros H. apply rmap_ok. eapply Forall_impl; [exact H|].
  intros i Hi. now apply get_ok.
Qed.

Lemma take2_ok {A : Type} (a : list A) (idx : list (list Z)) :
  Forall (fun w => Forall (fun i => 0 <= i < Z.of_nat (List.length a)) w) idx ->
  exists r, Np.take2 a idx = Ok r.
Proof.
  intros H. apply rmap_ok. eapply Forall_impl; [exact H|].
  intros w Hw. now apply take_ok.
Qed.

Lemma gbind_ok {A R S : Type} (g : Utils.gen A R) (k : R -> Utils.gen A S) (s : S) :
  (exists ys1 r, g = (ys1, Ok r)) ->
  (forall ys1 r, g = (ys1, Ok r) -> exists ys2, k r = (ys2, Ok s)) ->
  exists ys, Utils.gbind g k = (ys, Ok s).
Proof.
  intros (ys1 & r & Hg) Hk. destruct (Hk ys1 r Hg) as [ys2 Hk2].
  rewrite Hg. simpl. rewrite Hk2. eauto.
Qed.

Section Aligned.

Context {A : Type}.
Variables (inputs : list (list A)) (targets : list (list Q)) (L : nat).

Hypothesis Hinputs : Forall (fun i_ => List.length i_ = L) inputs.
Hypothesis Htargets : Forall (fun t_ => List.length t_ = L) targets.

Let in_range (i : Z) : Prop := 0 <= i < Z.of_nat L.

Lemma yield_batch_ok (iis : list (list Z)) (tis : list Z) :
  Forall (Forall in_range) iis -> Forall in_range tis ->
  exists y, Utils.yield_batch inputs targets iis tis = ([y], Ok tt).
Proof.
  intros Hi Ht. unfold Utils.yield_batch.
  destruct (rmap_ok (fun i_ => Np.take2 i_ iis) inputs) as [s Hs].
  { eapply Forall_impl; [exact Hinputs|]. intros i_ Hl. apply take2_ok.
    now rewrite Hl. }
  destruct (rmap_ok (fun t_ => Np.take t_ tis) targets) as [t Htt].
  { eapply Forall_impl; [exact Htargets|]. intros t_ Hl. apply take_ok.
    now rewrite Hl. }
  rewrite Hs, Htt. simpl. eauto.
Qed.

Lemma gfor_ok {B : Type} (body : B -> Utils.gen A unit) (l : list B) :
  (forall b, exists ys, body b = (ys, Ok tt)) ->
  exists ys, Utils.gfor l body = (ys, Ok tt).
Proof.
  intros Hbody. induction l as [|b l [ys IH]]; simpl.
  - unfold Utils.gret. eauto.
  - destruct (Hbody b) as [y ->]. simpl. rewrite IH. eauto.
Qed.

Lemma slice_Forall {B : Type} (P : B -> Prop) (l : list B) (i j : Z) :
  Forall P l -> Forall P (Np.slice l i j).
Proof. intros H. unfold Np.slice. now apply Forall_take, Forall_drop. Qed.

Lemma slice_from_Forall {B : Type} (P : B -> Prop) (l : list B) (i : Z) :
  Forall P l -> Forall P (Np.slice_from l i).
Proof. intros H. unfold Np.slice_from. now apply Forall_drop. Qed.

Lemma select_Forall {B : Type} (P : B -> Prop) (l : list B) (meta : list nat)
    (r : list B) :
  Forall P l -> Np.select l meta = Ok r -> Forall P r.
Proof.
  intros H Hr. apply select_Forall2 in Hr. rewrite Forall_forall in H.
  apply Forall_forall. intros x Hx. apply H. eapply picked_elem; eauto.
Qed.

Lemma epoch_loop_ok (shuffle : bool) (perms : nat -> list nat) (bsz n : Z)
    (n_batches_full n_residual_samples : Z) (es : list nat) :
  (shuffle = true -> forall e, perms e ≡ₚ seq 0 (Z.to_nat n)) ->
  forall (ins : list (list Z)) (tg : list Z),
    Forall (Forall in_range) ins -> Forall in_range tg ->
    Z.of_nat (List.length ins) = n -> Z.of_nat (List.length tg) = n ->
    exists ys,
      Utils.epoch_loop inputs targets shuffle perms (Utils.Finite bsz)
        n_batches_full n_residual_samples es ins tg = (ys, Ok tt).
Proof.
  intros Hperms. induction es as [|e es IH]; intros ins tg Hi Ht Hli Hlt; simpl.
  - unfold Utils.gret. eauto.
  - assert (exists ins' tg',
              (if shuffle
               then Utils.glift (do iis <- Np.select ins (perms e);
                                 do tis <- Np.select tg (perms e);
                                 Ok (iis, tis))
               else Utils.gret (ins, tg)) = ([], Ok (ins', tg')) /\
              Forall (Forall in_range) ins' /\ Forall in_range tg' /\
              Z.of_nat (List.length ins') = n /\ Z.of_nat (List.length tg') = n)
      as (ins' & tg' & -> & Hi' & Ht' & Hli' & Hlt').
    { destruct shuffle; [|exists ins, tg; auto].
      specialize (Hperms eq_refl e).
      assert (Forall (fun p => (p < Z.to_nat n)%nat) (perms e)) as Hlt_n.
      { apply Forall_forall. intros p Hp. rewrite Hperms in Hp.
        apply elem_of_seq in Hp. lia. }
      destruct (select_ok ins (perms e)) as [iis Hiis].
      { eapply Forall_impl; [exact Hlt_n|]. simpl. intros; lia. }
      destruct (select_ok tg (perms e)) as [tis Htis].
      { eapply Forall_impl; [exact Hlt_n|]. simpl. intros; lia. }
      exists iis, tis. rewrite Hiis, Htis. simpl.
      split; [reflexivity|].
      split; [eapply select_Forall; eauto|].
      split; [eapply select_Forall; eauto|].
      pose proof (Permutation_length Hperms) as Hpl. rewrite length_seq in Hpl.
      apply select_Forall2 in Hiis, Htis.
      rewrite <- (Forall2_length _ _ _ Hiis), <- (Forall2_length _ _ _ Htis). lia. }
    apply gbind_ok; [exists [], (ins', tg'); reflexivity|].
    intros ys0 [ins'' tg''] [= <- <- <-]. cbv beta iota.
    apply gbind_ok.
    { pose proof (gfor_ok
                    (fun b =>
                       Utils.gbind
                         (Utils.glift (Utils.batch_slice ins' b (Utils.Finite bsz)))
                         (fun iis =>
                       Utils.gbind
                         (Utils.glift (Utils.batch_slice tg' b (Utils.Finite bsz)))
                         (fun tis => Utils.yield_batch inputs targets iis tis)))
                    (Utils.range n_batches_full)) as Hfor.
      destruct Hfor as [ys1 Hfor]; [|exists ys1, tt; exact Hfor].
      intros b. simpl.
      destruct (yield_batch_ok (Np.slice ins' (b * bsz) (b * bsz + bsz))
                  (Np.slice tg' (b * bsz) (b * bsz + bsz))) as [y ->];
        [now apply slice_Forall.. |]. simpl. eauto. }
    intros ys1' [] _.
    apply gbind_ok.
    { destruct (0 <? n_residual_samples);
        [|exists [], tt; reflexivity].
      destruct (yield_batch_ok
                  (Np.slice_from ins' (Z.of_nat (List.length tg') - n_residual_samples))
                  (Np.slice_from tg' (Z.of_nat (List.length tg') - n_residual_samples)))
        as [y ->]; [now apply slice_from_Forall.. |]. exists [y], tt. reflexivity. }
    intros ys2' [] _. apply (IH ins' tg' Hi' Ht' Hli' Hlt').
Qed.

End Aligned.

(** X9.  On aligned data the generator never fails on an index: when every
    input and every target array has the length of [targets[0]], with
    [stride >= 1], [start_index >= 0], [target_steps_ahead >= 0],
    [length >= 1] and [batch_size >= 1], once [generate_indices] has returned
    the run of [generate_sequences] ends normally, for any number of epochs,
    without shuffling or with permutations of the windows as
    [np.random.permutation] draws them. *)
Theorem generate_sequences_no_index_error {A : Type} (draw : list nat)
    (perms : nat -> list nat) (inputs : list (list A)) (targets : list (list Q))
    (targets0 : list Q) (length tsa sampling_rate stride start_index : Z)
    (shuffle : bool) (epochs batch_size : Z) (subsample : bool) (thr f : Q)
    (ins : list (list Z)) (tg : list Z) :
  1 <= stride -> 0 <= start_index -> 0 <= tsa -> 1 <= length -> 1 <= batch_size ->
  head targets = Some targets0 ->
  Forall (fun t_ => List.length t_ = List.length targets0) targets ->
  Forall (fun i_ => List.length i_ = List.length targets0) inputs ->
  Utils.generate_indices draw targets length tsa sampling_rate stride start_index
    subsample thr f = Ok (ins, tg) ->
  (shuffle = true -> forall e, perms e ≡ₚ seq 0 (List.length tg)) ->
  exists ys,
    Utils.generate_sequences draw perms inputs targets length tsa sampling_rate
      stride start_index shuffle epochs batch_size subsample thr f = (ys, Ok tt).
Proof.
  intros Hs Hsi Htsa Hlen Hbs Hhd Htargets Hinputs Hidx Hperms.
  destruct targets as [|t0 rest]; [discriminate|]. injection Hhd as ->.
  pose proof (generate_indices_same_length _ _ _ _ _ _ _ _ _ _ _ _ Hidx) as Hl.
  destruct (generate_indices_bounds _ _ _ _ _ _ _ _ _ _ _ _ _ Hs Hsi Htsa Hlen Hidx)
    as [Hi Ht].
  unfold Utils.generate_sequences.
  destruct (stride <? 1) eqn:E; [apply Z.ltb_lt in E; lia|].
  rewrite Hidx. unfold Utils.batch_of.
  destruct (batch_size =? -1) eqn:E1; [apply Z.eqb_eq in E1; lia|].
  unfold Utils.floordiv_batch, Utils.mod_batch.
  destruct (batch_size =? 0) eqn:E0; [apply Z.eqb_eq in E0; lia|].
  apply gbind_ok; [exists [], (ins, tg); reflexivity|].
  intros ys0 [ins' tg'] [= <- <- <-]. cbv beta iota.
  apply gbind_ok; [eexists [], _; reflexivity|].
  intros ys1 q [= <- <-].
  apply gbind_ok; [eexists [], _; reflexivity|].
  intros ys2 r [= <- <-].
  apply gbind_ok; [eexists [_], tt; reflexivity|].
  intros ys3 [] _.
  apply (epoch_loop_ok inputs (targets0 :: rest) (List.length targets0)
           Hinputs Htargets shuffle perms batch_size (Z.of_nat (List.length tg)));
    [|assumption|assumption|lia|reflexivity].
  intros Hsh e. rewrite Nat2Z.id. now apply Hperms.
Qed.

Lemma generate_sequences_no_index_error_witness :
  exists ys,
    Utils.generate_sequences [] (fun _ => [2; 0; 3; 1]%nat)
      [[100; 101; 102; 103; 104]] [map inject_Z [10; 11; 12; 13; 14]]
      2 0 1 1 0 true 2 3 false (1 # 2) 1 = (ys, Ok tt).
Proof.
  apply (generate_sequences_no_index_error [] (fun _ => [2; 0; 3; 1]%nat)
           [[100; 101; 102; 103; 104]] [map inject_Z [10; 11; 12; 13; 14]]
           (map inject_Z [10; 11; 12; 13; 14]) 2 0 1 1 0 true 2 3 false (1 # 2) 1
           [[0; 1]; [1; 2]; [2; 3]; [3; 4]] [1; 2; 3; 4]);
    try lia; try reflexivity.
  - repeat constructor.
  - repeat constructor.
  - intros _ e. simpl.
    apply (perm_trans (l' := [0; 2; 3; 1]%nat)); [apply perm_swap|].
    apply perm_skip.
    apply (perm_trans (l' := [2; 1; 3]%nat)); [apply perm_skip, perm_swap|].
    apply perm_swap.
Defined.

(** ** Batch sizes below one *)

(** X10.  [batch_size = -1] is replaced by [np.inf], and the slice bounds
    computed from it are floats: with at least one window and one epoch, and
    without shuffling, the generator yields the count [1] and then raises
    [TypeError] instead of yielding the batch. *)
Theorem generate_sequences_infinite_batch {A : Type} (draw : list nat)
    (perms : nat -> list nat) (inputs : list (list A)) (targets : list (list Q))
    (length tsa sampling_rate stride start_index epochs : Z) (subsample : bool)
    (thr f : Q) (ins : list (list Z)) (tg : list Z) :
  1 <= stride -> 1 <= epochs -> tg <> [] ->
  Utils.generate_indices draw targets length tsa sampling_rate stride start_index
    subsample thr f = Ok (ins, tg) ->
  Utils.generate_sequences draw perms inputs targets length tsa sampling_rate
    stride start_index false epochs (-1) subsample thr f
  = ([Utils.YieldCount 1], Raise TypeError).
Proof.
  intros Hs He Hne Hidx. unfold Utils.generate_sequences.
  destruct (stride <? 1) eqn:E; [apply Z.ltb_lt in E; lia|].
  rewrite Hidx.
  replace (Z.to_nat epochs) with (S (Z.to_nat (epochs - 1))) by lia.
  assert ((0 <? Z.of_nat (List.length tg)) = true) as Hpos.
  { apply Z.ltb_lt. destruct tg; [contradiction | simpl; lia]. }
  simpl. rewrite Hpos. reflexivity.
Qed.

Lemma generate_sequences_infinite_batch_witness :
  Utils.generate_sequences [] (fun _ => []) [[100; 101; 102; 103; 104]]
    [map inject_Z [10; 11; 12; 13; 14]] 2 0 1 1 0 false 1 (-1) false (1 # 2) 1
  = ([Utils.YieldCount 1], Raise TypeError).
Proof.
  apply (generate_sequences_infinite_batch [] (fun _ => [])
           [[100; 101; 102; 103; 104]] [map inject_Z [10; 11; 12; 13; 14]]
           2 0 1 1 0 1 false (1 # 2) 1 [[0; 1]; [1; 2]; [2; 3]; [3; 4]] [1; 2; 3; 4]);
    try lia; [discriminate | reflexivity].
Defined.

Lemma epoch_loop_nothing {A : Type} (inputs : list (list A))
    (targets : list (list Q)) (perms : nat -> list nat) (bs : Utils.batch)
    (n_batches_full n_residual_samples : Z) (es : list nat)
    (ins : list (list Z)) (tg : list Z) :
  n_batches_full <= 0 -> n_residual_samples <= 0 ->
  Utils.epoch_loop inputs targets false perms bs n_batches_full
    n_residual_samples es ins tg = ([], Ok tt).
Proof.
  intros Hn Hr. induction es as [|e es IH]; [reflexivity|].
  cbn [Utils.epoch_loop]. unfold Utils.range.
  replace (Z.to_nat n_batches_full) with 0%nat by lia.
  destruct (0 <? n_residual_samples) eqn:E; [apply Z.ltb_lt in E; lia|].
  simpl. rewrite IH. reflexivity.
Qed.

(** X11.  A batch size of [-2] or less is accepted without an error and
    without data: when [generate_indices] returns, the generator (without
    shuffling) yields a count that is zero or negative, namely
    [n // batch_size], and then stops without having yielded a batch. *)
Theorem generate_sequences_negative_batch {A : Type} (draw : list nat)
    (perms : nat -> list nat) (inputs : list (list A)) (targets : list (list Q))
    (length tsa sampling_rate stride start_index epochs batch_size : Z)
    (subsample : bool) (thr f : Q) (ins : list (list Z)) (tg : list Z) :
  1 <= stride -> batch_size <= -2 ->
  Utils.generate_indices draw targets length tsa sampling_rate stride start_index
    subsample thr f = Ok (ins, tg) ->
  Utils.generate_sequences draw perms inputs targets length tsa sampling_rate
    stride start_index false epochs batch_size subsample thr f
  = ([Utils.YieldCount (Z.of_nat (List.length tg) / batch_size)], Ok tt) /\
  Z.of_nat (List.length tg) / batch_size <= 0.
Proof.
  intros Hs Hbs Hidx.
  set (n := Z.of_nat (List.length tg)).
  pose proof (Z.mod_neg_bound n batch_size ltac:(lia)) as Hmod.
  pose proof (Z.div_mod n batch_size ltac:(lia)) as Hdm.
  assert (n / batch_size <= 0) as Hq by (unfold n in *; nia).
  split; [|exact Hq].
  unfold Utils.generate_sequences.
  destruct (stride <? 1) eqn:E; [apply Z.ltb_lt in E; lia|].
  rewrite Hidx. unfold Utils.batch_of.
  destruct (batch_size =? -1) eqn:E1; [apply Z.eqb_eq in E1; lia|].
  unfold Utils.floordiv_batch, Utils.mod_batch.
  destruct (batch_size =? 0) eqn:E0; [apply Z.eqb_eq in E0; lia|].
  cbn [Utils.glift Utils.gbind app]. fold n.
  destruct (0 <? n mod batch_size) eqn:Er; [apply Z.ltb_lt in Er; lia|].
  rewrite epoch_loop_nothing by lia. reflexivity.
Qed.

Lemma generate_sequences_negative_batch_witness :
  Utils.generate_sequences [] (fun _ => []) [[100; 101; 102; 103; 104]]
    [map inject_Z [10; 11; 12; 13; 14]] 2 0 1 1 0 false 1 (-3) false (1 # 2) 1
  = ([Utils.YieldCount (4 / -3)], Ok tt) /\ 4 / -3 <= 0.
Proof.
  apply (generate_sequences_negative_batch [] (fun _ => [])
           [[100; 101; 102; 103; 104]] [map inject_Z [10; 11; 12; 13; 14]]
           2 0 1 1 0 1 (-3) false (1 # 2) 1 [[0; 1]; [1; 2]; [2; 3]; [3; 4]]
           [1; 2; 3; 4]); try lia; reflexivity.
Defined.

(* ===================================================================== *)
(** * Further properties of the seizure scan *)
(* ===================================================================== *)

Section ScanFound.

Import ExploreData.

Variables (szr : list bool) (c : Z) (k0 : Z).

(** One step either closes the pending seizure, or leaves the key and the
    entries below it as they are. *)
Lemma scan_step_shape (i : nat) (st st' : state) :
  (1 <= i)%nat -> scan_inv szr c k0 i st -> scan_step szr c i st = Ok st' ->
  (szr !! i = Some false /\ szr !! (i - 1)%nat = Some true /\
   exists s a,
     seizures st !! k st = Some s /\
     (1 <= a <= i - 1)%nat /\ start_idx s = Z.of_nat a - 1 /\
     szr !! (a - 1)%nat = Some false /\
     (forall j, (a <= j <= i - 1)%nat -> szr !! j = Some true) /\
     st' = mk_state
             (<[k st := mk_seizure (start_idx s) (Some (Z.of_nat i - 1))
                          (Some (Z.of_nat i - 1 - start_idx s)) (Some c)]>
                (seizures st))
             (k st + 1))
  \/
  (~ (szr !! i = Some false /\ szr !! (i - 1)%nat = Some true) /\
   k st' = k st /\
   forall key, key < k st -> seizures st' !! key = seizures st !! key).
Proof.
  intros Hi (Hk & Habove & Hdone & Hpend) H.
  unfold scan_step in H.
  inv_bind H. rename x into cur, Hx into Hcur.
  inv_bind H. rename x into prev, Hx into Hprev.
  apply label_Ok in Hcur, Hprev.
  destruct cur, prev; simpl in H.
  - injection H as <-. right. split; [intros [? _]; congruence|]. auto.
  - injection H as <-. right. split; [intros [? _]; congruence|].
    split; [reflexivity|]. intros key Hkey. simpl.
    apply lookup_insert_ne. lia.
  - destruct (seizures st !! k st) as [s|] eqn:Es; [|discriminate].
    injection H as <-. left.
    destruct Hpend as (He & a & Ha & Hs & Hf & Hrun).
    split; [assumption|]. split; [assumption|].
    exists s, a. auto 10.
  - injection H as <-. right. split; [intros [_ ?]; congruence|]. auto.
Qed.

Lemma records_inj (s : seizure) (a b a' b' : nat) :
  records szr c s a b -> records szr c s a' b' -> a = a' /\ b = b'.
Proof.
  intros (_ & _ & _ & _ & Hs & He & _) (_ & _ & _ & _ & Hs' & He' & _).
  rewrite Hs in Hs'. rewrite He in He'. injection He' as He'. lia.
Qed.

Lemma scan_step_found (i : nat) (st st' : state) :
  (1 <= i)%nat -> scan_inv szr c k0 i st -> scan_found szr c k0 i st ->
  scan_step szr c i st = Ok st' -> scan_found szr c k0 (S i) st'.
Proof.
  intros Hi Hinv (Hrec & Hall & Hcomp & Hord) H.
  pose proof Hinv as (Hk & Habove & _ & _).
  destruct (scan_step_shape i st st' Hi Hinv H)
    as [(Hcur & Hprev & s & a & Es & Ha & Hs & Hf & Hrun & ->)
       | (Hno & Hk' & Hsame)].
  - (* the pending seizure is closed under the key [k st] *)
    set (s' := mk_seizure (start_idx s) (Some (Z.of_nat i - 1))
                 (Some (Z.of_nat i - 1 - start_idx s)) (Some c)).
    assert (records szr c s' a (i - 1)) as Hnew.
    { unfold records, s'. simpl. replace (i - 1 + 1)%nat with i by lia.
      repeat split; try assumption; try lia; f_equal; lia. }
    assert (forall a1 b1 s1, records szr c s1 a1 b1 -> (b1 + 1 < i)%nat ->
                             (b1 + 1 < a)%nat) as Hbefore.
    { intros a1 b1 s1 (_ & _ & Hl & _) Hb.
      destruct (Nat.lt_ge_cases (b1 + 1)%nat a) as [|Hge]; [assumption|].
      rewrite (Hrun (b1 + 1)%nat) in Hl by lia. discriminate. }
    unfold scan_found. simpl. split; [|split; [|split]].
    + intros key s1 Hkey Hs1.
      destruct (Z.eq_dec key (k st)) as [->|Hne].
      * rewrite lookup_insert_eq in Hs1. injection Hs1 as <-.
        exists a, (i - 1)%nat. split; [exact Hnew | lia].
      * rewrite lookup_insert_ne in Hs1 by congruence.
        destruct (Hrec key s1 ltac:(lia) Hs1) as (a1 & b1 & Hr & Hb).
        exists a1, b1. split; [exact Hr | lia].
    + intros key Hkey.
      destruct (Z.eq_dec key (k st)) as [->|Hne].
      * rewrite lookup_insert_eq. eauto.
      * rewrite lookup_insert_ne by congruence. apply Hall. lia.
    + intros a1 b1 Hrun1 Hb1.
      destruct (Nat.eq_dec (b1 + 1)%nat i) as [Heq|Hne].
      * (* the run that ends at [i - 1] is the pending one *)
        destruct Hrun1 as (Hab1 & Hf1 & _ & Hrun1).
        assert (a1 = a) as ->.
        { destruct (Nat.lt_trichotomy a1 a) as [Hlt|[->|Hgt]]; [|reflexivity|].
          - rewrite (Hrun1 (a - 1)%nat) in Hf by lia. discriminate.
          - rewrite (Hrun (a1 - 1)%nat) in Hf1 by lia. discriminate. }
        exists (k st), s'. split; [lia|]. split; [apply lookup_insert_eq|].
        replace b1 with (i - 1)%nat by lia. exact Hnew.
      * destruct (Hcomp a1 b1 Hrun1 ltac:(lia)) as (key & s1 & Hkey & Hs1 & Hr).
        exists key, s1. split; [lia|]. split; [|exact Hr].
        rewrite lookup_insert_ne by lia. exact Hs1.
    + intros key1 key2 s1 s2 e1 Hk1 Hlt Hk2 Hs1 Hs2 He1.
      rewrite lookup_insert_ne in Hs1 by lia.
      destruct (Hrec key1 s1 ltac:(lia) Hs1) as (a1 & b1 & Hr1 & Hb1).
      pose proof (Hbefore a1 b1 s1 Hr1 Hb1) as Hb.
      destruct Hr1 as (_ & _ & _ & _ & _ & He & _).
      rewrite He in He1. injection He1 as <-.
      destruct (Z.eq_dec key2 (k st)) as [->|Hne].
      * rewrite lookup_insert_eq in Hs2. injection Hs2 as <-.
        unfold s'. simpl. lia.
      * rewrite lookup_insert_ne in Hs2 by congruence.
        apply (Hord key1 key2 s1 s2); try lia; assumption.
  - (* nothing below the key changes *)
    unfold scan_found. rewrite Hk'. split; [|split; [|split]].
    + intros key s1 Hkey Hs1. rewrite Hsame in Hs1 by lia.
      destruct (Hrec key s1 Hkey Hs1) as (a1 & b1 & Hr & Hb).
      exists a1, b1. split; [exact Hr | lia].
    + intros key Hkey. rewrite Hsame by lia. now apply Hall.
    + intros a1 b1 Hrun1 Hb1.
      destruct (Nat.eq_dec (b1 + 1)%nat i) as [Heq|Hne].
      * exfalso. apply Hno. destruct Hrun1 as (Hab1 & _ & Hl1 & Hrun1).
        split; [now rewrite <- Heq|].
        replace (i - 1)%nat with b1 by lia. apply Hrun1. lia.
      * destruct (Hcomp a1 b1 Hrun1 ltac:(lia)) as (key & s1 & Hkey & Hs1 & Hr).
        exists key, s1. split; [lia|]. split; [|exact Hr].
        rewrite Hsame by lia. exact Hs1.
    + intros key1 key2 s1 s2 e1 Hk1 Hlt Hk2 Hs1 Hs2 He1.
      rewrite Hsame in Hs1, Hs2 by lia.
      apply (Hord key1 key2 s1 s2); try lia; assumption.
Qed.

Lemma scan_from_found (count i : nat) (st st' : state) :
  (1 <= i)%nat -> scan_inv szr c k0 i st -> scan_found szr c k0 i st ->
  scan_from szr c i count st = Ok st' ->
  scan_found szr c k0 (i + count) st'.
Proof.
  revert i st. induction count as [|count IH]; intros i st Hi Hinv Hf H;
    simpl in H.
  - injection H as <-. now rewrite Nat.add_0_r.
  - inv_bind H. replace (i + S count)%nat with (S i + count)%nat by lia.
    apply (IH (S i) x); [lia | | | assumption].
    + eapply scan_step_inv; eauto.
    + eapply scan_step_found; eauto.
Qed.

End ScanFound.

Section ScanClip.

Import ExploreData.

Variables (d : clip) (c : Z) (st st' : state).

Hypothesis Hfresh : forall key, k st <= key -> seizures st !! key = None.
Hypothesis Hscan : scan_clip d c st = Ok st'.

Lemma scan_clip_inv :
  scan_inv (szr_bool d) c (k st) (1 + (n_timestamps d - 1)) st'.
Proof.
  unfold scan_clip in Hscan.
  apply (scan_from_inv (szr_bool d) c (k st)) in Hscan; [assumption | lia |].
  split; [lia|]. split; [|split].
  - intros key Hk. apply Hfresh. lia.
  - intros key s Hk. lia.
  - rewrite Hfresh by lia. simpl. intros H0 j Hj.
    replace j with 0%nat by lia. exact H0.
Qed.

Lemma scan_clip_found :
  scan_found (szr_bool d) c (k st) (1 + (n_timestamps d - 1)) st'.
Proof.
  unfold scan_clip in Hscan.
  apply (scan_from_found (szr_bool d) c (k st)) in Hscan; [assumption | lia | |].
  - split; [lia|]. split; [|split].
    + intros key Hk. apply Hfresh. lia.
    + intros key s Hk. lia.
    + rewrite Hfresh by lia. simpl. intros H0 j Hj.
      replace j with 0%nat by lia. exact H0.
  - split; [|split; [|split]].
    + intros key s Hk. lia.
    + intros key Hk. lia.
    + intros a b _ Hb. lia.
    + intros key1 key2 s1 s2 e1 Hk1 Hlt Hk2. lia.
Qed.

End ScanClip.

(** X12.  The scan misses no seizure: when the scan of a clip entered with
    no entry under the current key or a later one succeeds, every run of
    [True] labels [a..b] with a [False] label before it and a [False] label
    after it inside the scanned range has an entry, written during this scan,
    with ['start_idx'] [a - 1], ['end_idx'] [b], ['duration'] [b - a + 1] and
    the number of the clip. *)
Theorem seizure_scan_complete (d : ExploreData.clip) (c : Z)
    (st st' : ExploreData.state) (a b : nat) :
  (forall key, ExploreData.k st <= key -> ExploreData.seizures st !! key = None) ->
  ExploreData.scan_clip d c st = Ok st' ->
  ExploreData.bounded_run (ExploreData.szr_bool d) a b ->
  (b + 1 < ExploreData.n_timestamps d)%nat ->
  exists key,
    ExploreData.k st <= key < ExploreData.k st' /\
    ExploreData.seizures st' !! key
    = Some (ExploreData.mk_seizure (Z.of_nat a - 1) (Some (Z.of_nat b))
              (Some (Z.of_nat b - Z.of_nat a + 1)) (Some c)).
Proof.
  intros Hfresh Hscan Hrun Hb.
  destruct (scan_clip_found d c st st' Hfresh Hscan) as (_ & _ & Hcomp & _).
  destruct (Hcomp a b Hrun ltac:(lia)) as (key & s & Hkey & Hs & Hr).
  exists key. split; [exact Hkey|]. rewrite Hs. f_equal.
  destruct Hr as (_ & _ & _ & _ & H1 & H2 & H3 & H4).
  destruct s as [s1 s2 s3 s4]. simpl in *. congruence.
Qed.

Lemma seizure_scan_complete_witness :
  exists key,
    1 <= key < 3 /\
    ({[ 1 := ExploreData.mk_seizure 0 (Some 2) (Some 2) (Some 7);
        2 := ExploreData.mk_seizure 3 (Some 4) (Some 1) (Some 7) ]}
       : gmap Z ExploreData.seizure) !! key
    = Some (ExploreData.mk_seizure (Z.of_nat 4 - 1) (Some (Z.of_nat 4))
              (Some (Z.of_nat 4 - Z.of_nat 4 + 1)) (Some 7)).
Proof.
  apply (seizure_scan_complete
           (ExploreData.mk_clip 6 [false; true; true; false; true; false]) 7
           ExploreData.initial
           (ExploreData.mk_state
              {[ 1 := ExploreData.mk_seizure 0 (Some 2) (Some 2) (Some 7);
                 2 := ExploreData.mk_seizure 3 (Some 4) (Some 1) (Some 7) ]} 3)
           4 4 ltac:(intros; apply lookup_empty)).
  - vm_compute. reflexivity.
  - unfold ExploreData.bounded_run. simpl.
    split; [lia|]. split; [reflexivity|]. split; [reflexivity|].
    intros j Hj. replace j with 4%nat by lia. reflexivity.
  - simpl. lia.
Defined.

(** X13.  The seizures found in a clip are numbered consecutively and in
    temporal order: after a successful scan entered with no entry under the
    current key [k] or a later one, every key from [k] up to the new key
    (excluded) holds an entry with an ['end_idx'], and of two such entries
    the one with the smaller key ends before the ['start_idx'] of the
    other. *)
Theorem seizure_scan_numbering (d : ExploreData.clip) (c : Z)
    (st st' : ExploreData.state) :
  (forall key, ExploreData.k st <= key -> ExploreData.seizures st !! key = None) ->
  ExploreData.scan_clip d c st = Ok st' ->
  ExploreData.k st <= ExploreData.k st' /\
  (forall key, ExploreData.k st <= key < ExploreData.k st' ->
     exists s e, ExploreData.seizures st' !! key = Some s /\
                 ExploreData.end_idx s = Some e) /\
  (forall key1 key2 s1 s2 e1,
     ExploreData.k st <= key1 -> key1 < key2 -> key2 < ExploreData.k st' ->
     ExploreData.seizures st' !! key1 = Some s1 ->
     ExploreData.seizures st' !! key2 = Some s2 ->
     ExploreData.end_idx s1 = Some e1 ->
     e1 < ExploreData.start_idx s2).
Proof.
  intros Hfresh Hscan.
  destruct (scan_clip_inv d c st st' Hfresh Hscan) as (Hk & _).
  destruct (scan_clip_found d c st st' Hfresh Hscan) as (Hrec & Hall & _ & Hord).
  split; [exact Hk|]. split; [|exact Hord].
  intros key Hkey. destruct (Hall key Hkey) as [s Hs].
  destruct (Hrec key s Hkey Hs) as (a & b & Hr & _).
  destruct Hr as (_ & _ & _ & _ & _ & He & _). eauto.
Qed.

Lemma seizure_scan_numbering_witness :
  1 <= 3 /\
  (forall key, 1 <= key < 3 ->
     exists s e,
       ({[ 1 := ExploreData.mk_seizure 0 (Some 2) (Some 2) (Some 7);
           2 := ExploreData.mk_seizure 3 (Some 4) (Some 1) (Some 7) ]}
          : gmap Z ExploreData.seizure) !! key = Some s /\
       ExploreData.end_idx s = Some e) /\
  (forall key1 key2 s1 s2 e1,
     1 <= key1 -> key1 < key2 -> key2 < 3 ->
     ({[ 1 := ExploreData.mk_seizure 0 (Some 2) (Some 2) (Some 7);
         2 := ExploreData.mk_seizure 3 (Some 4) (Some 1) (Some 7) ]}
        : gmap Z ExploreData.seizure) !! key1 = Some s1 ->
     ({[ 1 := ExploreData.mk_seizure 0 (Some 2) (Some 2) (Some 7);
         2 := ExploreData.mk_seizure 3 (Some 4) (Some 1) (Some 7) ]}
        : gmap Z ExploreData.seizure) !! key2 = Some s2 ->
     ExploreData.end_idx s1 = Some e1 ->
     e1 < ExploreData.start_idx s2).
Proof.
  apply (seizure_scan_numbering
           (ExploreData.mk_clip 6 [false; true; true; false; true; false]) 7
           ExploreData.initial
           (ExploreData.mk_state
              {[ 1 := ExploreData.mk_seizure 0 (Some 2) (Some 2) (Some 7);
                 2 := ExploreData.mk_seizure 3 (Some 4) (Some 1) (Some 7) ]} 3)
           ltac:(intros; apply lookup_empty)).
  vm_compute. reflexivity.
Defined.

(** ** A clip that starts during a seizure *)

Lemma scan_from_split (szr : list bool) (c : Z) (n1 n2 : nat) :
  forall (i : nat) (st : ExploreData.state),
    ExploreData.scan_from szr c i (n1 + n2) st
    = do st1 <- ExploreData.scan_from szr c i n1 st;
      ExploreData.scan_from szr c (i + n1) n2 st1.
Proof.
  induction n1 as [|n1 IH]; intros i st; simpl.
  - now rewrite Nat.add_0_r.
  - destruct (ExploreData.scan_step szr c i st) as [st1|e]; simpl; [|reflexivity].
    rewrite IH. now replace (S i + n1)%nat with (i + S n1)%nat by lia.
Qed.

Lemma scan_from_true (szr : list bool) (c : Z) (count : nat) :
  forall (i : nat) (st : ExploreData.state),
    (1 <= i)%nat ->
    (forall j, (j < i + count)%nat -> szr !! j = Some true) ->
    ExploreData.scan_from szr c i count st = Ok st.
Proof.
  induction count as [|count IH]; intros i st Hi Htrue; simpl; [reflexivity|].
  unfold ExploreData.scan_step, ExploreData.label.
  rewrite (Htrue i), (Htrue (i - 1)%nat) by lia. simpl.
  apply IH; [lia|]. intros j Hj. apply Htrue. lia.
Qed.

Lemma scan_step_frame (szr : list bool) (c : Z) (i : nat)
    (st st' : ExploreData.state) :
  ExploreData.scan_step szr c i st = Ok st' ->
  ExploreData.k st <= ExploreData.k st' /\
  forall key, key < ExploreData.k st ->
              ExploreData.seizures st' !! key = ExploreData.seizures st !! key.
Proof.
  unfold ExploreData.scan_step. intros H.
  inv_bind H. rename x into cur. inv_bind H. rename x into prev.
  destruct cur, prev; simpl in H.
  - injection H as <-. split; [lia | reflexivity].
  - injection H as <-. simpl. split; [lia|].
    intros key Hkey. apply lookup_insert_ne. lia.
  - destruct (ExploreData.seizures st !! ExploreData.k st) as [s|];
      [|discriminate].
    injection H as <-. simpl. split; [lia|].
    intros key Hkey. apply lookup_insert_ne. lia.
  - injection H as <-. split; [lia | reflexivity].
Qed.

Lemma scan_from_frame (szr : list bool) (c : Z) (count : nat) :
  forall (i : nat) (st st' : ExploreData.state),
    ExploreData.scan_from szr c i count st = Ok st' ->
    ExploreData.k st <= ExploreData.k st' /\
    forall key, key < ExploreData.k st ->
                ExploreData.seizures st' !! key = ExploreData.seizures st !! key.
Proof.
  induction count as [|count IH]; intros i st st' H; simpl in H.
  - injection H as <-. split; [lia | reflexivity].
  - inv_bind H. apply scan_step_frame in Hx as [Hk1 Hs1].
    apply IH in H as [Hk2 Hs2]. split; [lia|].
    intros key Hkey. rewrite Hs2 by lia. apply Hs1. exact Hkey.
Qed.

(** X15.  A clip that starts during a seizure, scanned with no entry under
    the current key, stops the script: when the labels [0..m-1] are [True]
    and label [m], inside the scanned range, is [False], the end of that
    seizure finds no entry to complete and the scan raises [KeyError]. *)
Theorem seizure_scan_key_error (d : ExploreData.clip) (c : Z)
    (st : ExploreData.state) (m : nat) :
  ExploreData.seizures st !! ExploreData.k st = None ->
  (1 <= m < ExploreData.n_timestamps d)%nat ->
  (forall j, (j < m)%nat -> ExploreData.szr_bool d !! j = Some true) ->
  ExploreData.szr_bool d !! m = Some false ->
  ExploreData.scan_clip d c st = Raise KeyError.
Proof.
  intros Hnone Hm Htrue Hfalse. unfold ExploreData.scan_clip.
  replace (ExploreData.n_timestamps d - 1)%nat
    with ((m - 1) + S (ExploreData.n_timestamps d - 1 - m))%nat by lia.
  rewrite scan_from_split.
  rewrite scan_from_true; [|lia|intros j Hj; apply Htrue; lia].
  replace (1 + (m - 1))%nat with m by lia.
  simpl. unfold ExploreData.scan_step, ExploreData.label.
  rewrite Hfalse, (Htrue (m - 1)%nat) by lia. simpl.
  rewrite Hnone. reflexivity.
Qed.

Lemma seizure_scan_key_error_witness :
  ExploreData.scan_clip (ExploreData.mk_clip 5 [true; true; false; true; false]) 1
    ExploreData.initial = Raise KeyError.
Proof.
  apply (seizure_scan_key_error
           (ExploreData.mk_clip 5 [true; true; false; true; false]) 1
           ExploreData.initial 2).
  - reflexivity.
  - simpl. lia.
  - simpl. intros j Hj.
    assert (j = 0%nat \/ j = 1%nat) as [-> | ->] by lia; reflexivity.
  - reflexivity.
Defined.

(** X16.  The dictionary and the counter are carried from one clip to the
    next: when a clip is scanned with an entry already under the current key
    (a seizure left unfinished by the previous clip) and its labels [0..m-1]
    are [True] and label [m], inside the scanned range, is [False], that
    entry is completed with the start index of the previous clip and the end
    index [m - 1] of this one, and its ['duration'] is the difference of the
    two. *)
Theorem seizure_scan_carried_over (d : ExploreData.clip) (c : Z)
    (st st' : ExploreData.state) (s : ExploreData.seizure) (m : nat) :
  ExploreData.seizures st !! ExploreData.k st = Some s ->
  (1 <= m < ExploreData.n_timestamps d)%nat ->
  (forall j, (j < m)%nat -> ExploreData.szr_bool d !! j = Some true) ->
  ExploreData.szr_bool d !! m = Some false ->
  ExploreData.scan_clip d c st = Ok st' ->
  ExploreData.seizures st' !! ExploreData.k st
  = Some (ExploreData.mk_seizure (ExploreData.start_idx s)
            (Some (Z.of_nat m - 1))
            (Some (Z.of_nat m - 1 - ExploreData.start_idx s)) (Some c)).
Proof.
  intros Hs Hm Htrue Hfalse Hscan. unfold ExploreData.scan_clip in Hscan.
  replace (ExploreData.n_timestamps d - 1)%nat
    with ((m - 1) + S (ExploreData.n_timestamps d - 1 - m))%nat in Hscan by lia.
  rewrite scan_from_split in Hscan.
  rewrite scan_from_true in Hscan; [|lia|intros j Hj; apply Htrue; lia].
  replace (1 + (m - 1))%nat with m in Hscan by lia.
  simpl in Hscan. unfold ExploreData.scan_step, ExploreData.label in Hscan.
  rewrite Hfalse, (Htrue (m - 1)%nat) in Hscan by lia. simpl in Hscan.
  rewrite Hs in Hscan. simpl in Hscan.
  apply scan_from_frame in Hscan as [_ Hsame].
  rewrite Hsame by (simpl; lia). simpl. apply lookup_insert_eq.
Qed.

Lemma seizure_scan_carried_over_witness :
  ({[ 1 := ExploreData.mk_seizure 5 (Some 1) (Some (-4)) (Some 2) ]}
     : gmap Z ExploreData.seizure) !! 1
  = Some (ExploreData.mk_seizure 5 (Some (Z.of_nat 2 - 1))
            (Some (Z.of_nat 2 - 1 - 5)) (Some 2)).
Proof.
  refine (seizure_scan_carried_over
            (ExploreData.mk_clip 4 [true; true; false; false]) 2
            (ExploreData.mk_state
               {[ 1 := ExploreData.mk_seizure 5 None None None ]} 1)
            (ExploreData.mk_state
               {[ 1 := ExploreData.mk_seizure 5 (Some 1) (Some (-4)) (Some 2) ]} 2)
            (ExploreData.mk_seizure 5 None None None) 2 _ _ _ _ _).
  - reflexivity.
  - simpl. lia.
  - simpl. intros j Hj.
    assert (j = 0%nat \/ j = 1%nat) as [-> | ->] by lia; reflexivity.
  - reflexivity.
  - vm_compute. reflexivity.
Defined.

(** ** A clip that ends during a seizure *)

Lemma scan_from_true_range (szr : list bool) (c : Z) (count : nat) :
  forall (i : nat) (st : ExploreData.state),
    (1 <= i)%nat ->
    (forall j, (i - 1 <= j < i + count)%nat -> szr !! j = Some true) ->
    ExploreData.scan_from szr c i count st = Ok st.
Proof.
  induction count as [|count IH]; intros i st Hi Htrue; simpl; [reflexivity|].
  unfold ExploreData.scan_step, ExploreData.label.
  rewrite (Htrue i), (Htrue (i - 1)%nat) by lia. simpl.
  apply IH; [lia|]. intros j Hj. apply Htrue. lia.
Qed.

(** X14.  A seizure still going on when the clip ends is left as an entry
    with a ['start_idx'] only: when the labels [a..n-1] up to the last scanned
    one are [True] and label [a - 1] is [False], the entry under the key
    reached by the scan has ['start_idx'] [a - 1] and no ['end_idx'],
    whatever the dictionary held when the clip was entered. *)
Theorem seizure_scan_unfinished (d : ExploreData.clip) (c : Z)
    (st st' : ExploreData.state) (a : nat) :
  ExploreData.scan_clip d c st = Ok st' ->
  (1 <= a < ExploreData.n_timestamps d)%nat ->
  ExploreData.szr_bool d !! (a - 1)%nat = Some false ->
  (forall j, (a <= j < ExploreData.n_timestamps d)%nat ->
             ExploreData.szr_bool d !! j = Some true) ->
  exists s,
    ExploreData.seizures st' !! ExploreData.k st' = Some s /\
    ExploreData.start_idx s = Z.of_nat a - 1 /\
    ExploreData.end_idx s = None.
Proof.
  intros Hscan Ha Hf Hrun. unfold ExploreData.scan_clip in Hscan.
  set (n := ExploreData.n_timestamps d) in *.
  replace (n - 1)%nat with ((a - 1) + S (n - 1 - a))%nat in Hscan by lia.
  rewrite scan_from_split in Hscan.
  inv_bind Hscan. rename x into st1.
  replace (1 + (a - 1))%nat with a in Hscan by lia.
  simpl in Hscan. unfold ExploreData.scan_step at 1, ExploreData.label in Hscan.
  rewrite (Hrun a), Hf in Hscan by lia. simpl in Hscan.
  rewrite scan_from_true_range in Hscan;
    [|lia|intros j Hj; apply Hrun; lia].
  injection Hscan as <-. simpl.
  exists (ExploreData.mk_seizure (Z.of_nat a - 1) None None None).
  split; [apply lookup_insert_eq | split; reflexivity].
Qed.

Lemma seizure_scan_unfinished_witness :
  exists s,
    ({[ 1 := ExploreData.mk_seizure 1 None None None ]}
       : gmap Z ExploreData.seizure) !! 1 = Some s /\
    ExploreData.start_idx s = Z.of_nat 2 - 1 /\
    ExploreData.end_idx s = None.
Proof.
  refine (seizure_scan_unfinished
            (ExploreData.mk_clip 4 [false; false; true; true]) 7
            ExploreData.initial
            (ExploreData.mk_state
               {[ 1 := ExploreData.mk_seizure 1 None None None ]} 1)
            2 _ _ _ _).
  - vm_compute. reflexivity.
  - simpl. lia.
  - reflexivity.
  - simpl. intros j Hj.
    assert (j = 2%nat \/ j = 3%nat) as [-> | ->] by lia; reflexivity.
Defined.

(* ===================================================================== *)
(** * Further properties of [running_mean] *)
(* ===================================================================== *)

Section RunningMeanEdges.

Local Open Scope Q_scope.

(** X17.  A window longer than the data gives an empty result and no
    exception. *)
Theorem running_mean_long_window (x : list Q) (N : Z) :
  (Z.of_nat (List.length x) < N)%Z -> Svm.running_mean x N = Ok [].
Proof.
  intros HN. unfold Svm.running_mean.
  set (c := Svm.cumsum (0 :: x)).
  assert (List.length c = S (List.length x)) as Hc by apply cumsum_insert_length.
  assert (Np.slice_from c N = []) as ->.
  { unfold Np.slice_from, Np.norm_bound.
    destruct (N <? 0)%Z eqn:E; [apply Z.ltb_lt in E; lia|].
    apply drop_ge. lia. }
  assert (Np.slice_to c (- N) = []) as ->.
  { unfold Np.slice_to, Np.norm_bound.
    destruct (- N <? 0)%Z eqn:E; [|apply Z.ltb_ge in E; lia].
    replace (Z.to_nat (Z.max 0 (Z.of_nat (List.length c) + - N))) with 0%nat by lia.
    reflexivity. }
  reflexivity.
Qed.

Lemma running_mean_long_window_witness :
  Svm.running_mean [1; 2; 3] 5 = Ok [].
Proof. apply (running_mean_long_window [1; 2; 3] 5). simpl. lia. Defined.

(** X18.  A window of zero on a sequence that is not empty does not divide
    by zero: [cumsum[:-0]] is the empty array, the subtraction of an empty
    array from one of [n + 1 >= 2] elements cannot be broadcast, and the call
    raises [ValueError]. *)
Theorem running_mean_zero_window (x : list Q) :
  x <> [] -> Svm.running_mean x 0 = Raise ValueError.
Proof.
  intros Hx. destruct x as [|v x]; [contradiction|]. reflexivity.
Qed.

Lemma running_mean_zero_window_witness :
  Svm.running_mean [1; 2; 3] 0 = Raise ValueError.
Proof. apply (running_mean_zero_window [1; 2; 3]). discriminate. Defined.

Lemma running_mean_values (x : list Q) (N : nat) :
  (1 <= N <= List.length x)%nat ->
  exists r : list Q,
    Svm.running_mean x (Z.of_nat N) = Ok r /\
    List.length r = (List.length x - N + 1)%nat /\
    (forall (i : nat) (v : Q),
        r !! i = Some v ->
        v == Svm.sum (firstn N (skipn i x)) / inject_Z (Z.of_nat N)).
Proof.
  intros HN.
  set (c := Svm.cumsum (0 :: x)).
  pose proof (cumsum_insert_length x) as Hc. fold c in Hc.
  assert (Np.slice_from c (Z.of_nat N) = drop N c) as Hfrom.
  { unfold Np.slice_from, Np.norm_bound.
    destruct (Z.of_nat N <? 0)%Z eqn:E; [apply Z.ltb_lt in E; lia|].
    now rewrite Nat2Z.id. }
  assert (Np.slice_to c (- Z.of_nat N) = take (S (List.length x) - N) c) as Hto.
  { unfold Np.slice_to, Np.norm_bound.
    destruct (- Z.of_nat N <? 0)%Z eqn:E; [|apply Z.ltb_ge in E; lia].
    f_equal. rewrite Hc. lia. }
  assert (List.length (drop N c) = List.length (take (S (List.length x) - N) c))
    as Hlen.
  { rewrite length_drop, length_take, Hc. lia. }
  set (diff := Svm.zip_sub (drop N c) (take (S (List.length x) - N) c)).
  exists (map (fun d => d / inject_Z (Z.of_nat N)) diff).
  split; [|split].
  - unfold Svm.running_mean. fold c. rewrite Hfrom, Hto.
    unfold Svm.np_sub. rewrite Hlen, Nat.eqb_refl. reflexivity.
  - unfold diff. rewrite length_map, zip_sub_length by exact Hlen.
    rewrite length_drop, Hc. lia.
  - intros i v Hi. rewrite list_lookup_fmap in Hi.
    destruct (diff !! i) as [dv|] eqn:Ed; [|discriminate].
    injection Hi as <-.
    apply zip_sub_lookup in Ed as (u & w & Hu & Hw & ->).
    rewrite lookup_drop in Hu.
    apply lookup_take_Some in Hw as [Hw _].
    apply cumsum_insert_lookup in Hu, Hw.
    rewrite Nat.add_comm, <- take_take_drop, sum_app in Hu.
    rewrite Hu, Hw.
    apply Qmult_comp; [ring | reflexivity].
Qed.

Lemma sum_bounds (lo hi : Q) (l : list Q) :
  Forall (fun v => lo <= v /\ v <= hi) l ->
  inject_Z (Z.of_nat (List.length l)) * lo <= Svm.sum l /\
  Svm.sum l <= inject_Z (Z.of_nat (List.length l)) * hi.
Proof.
  induction 1 as [|v l [Hlo Hhi] _ [IHlo IHhi]].
  - simpl. split; apply Qle_lteq; right; ring.
  - change (Svm.sum (v :: l)) with (v + Svm.sum l).
    assert (inject_Z (Z.of_nat (List.length (v :: l)))
            == 1 + inject_Z (Z.of_nat (List.length l))) as ->.
    { cbn [List.length]. rewrite Nat2Z.inj_succ, <- Z.add_1_l, inject_Z_plus.
      reflexivity. }
    split.
    + assert ((1 + inject_Z (Z.of_nat (List.length l))) * lo
              == lo + inject_Z (Z.of_nat (List.length l)) * lo) as -> by ring.
      now apply Qplus_le_compat.
    + assert ((1 + inject_Z (Z.of_nat (List.length l))) * hi
              == hi + inject_Z (Z.of_nat (List.length l)) * hi) as -> by ring.
      now apply Qplus_le_compat.
Qed.

(** X19.  The running mean stays within the range of the data: when every
    element of [x] lies between [lo] and [hi] and [1 <= N <= len(x)], so does
    every element of [running_mean(x, N)] (for probabilities, between 0 and
    1), in exact arithmetic. *)
Theorem running_mean_bounds (x : list Q) (N : nat) (lo hi : Q) :
  (1 <= N <= List.length x)%nat ->
  Forall (fun v => lo <= v /\ v <= hi) x ->
  exists r : list Q,
    Svm.running_mean x (Z.of_nat N) = Ok r /\
    Forall (fun v => lo <= v /\ v <= hi) r.
Proof.
  intros HN Hx.
  destruct (running_mean_values x N HN) as (r & Hr & Hlen & Hv).
  exists r. split; [exact Hr|].
  apply Forall_forall. intros v Hin.
  apply list_elem_of_lookup in Hin as [i Hi].
  pose proof (lookup_lt_Some _ _ _ Hi) as Hlt. rewrite Hlen in Hlt.
  rewrite (Hv i v Hi).
  assert (List.length (firstn N (skipn i x)) = N) as HlenN.
  { rewrite length_take, length_drop. lia. }
  destruct (sum_bounds lo hi (firstn N (skipn i x))) as [Hlo Hhi].
  { now apply Forall_take, Forall_drop. }
  rewrite HlenN in Hlo, Hhi.
  assert (0 < inject_Z (Z.of_nat N)) as Hpos.
  { unfold Qlt. simpl. lia. }
  split.
  - apply Qle_shift_div_l; [exact Hpos|]. now rewrite Qmult_comm.
  - apply Qle_shift_div_r; [exact Hpos|]. now rewrite Qmult_comm.
Qed.

Lemma running_mean_bounds_witness :
  exists r : list Q,
    Svm.running_mean [1 # 2; 1; 0; 1 # 4] 2 = Ok r /\
    Forall (fun v => 0 <= v /\ v <= 1) r.
Proof.
  apply (running_mean_bounds [1 # 2; 1; 0; 1 # 4] 2 0 1).
  - simpl. lia.
  - repeat constructor; unfold Qle; simpl; lia.
Defined.

End RunningMeanEdges.
